(** * FanSense: the location-resolution pipeline

    A shallow embedding of [src/data_processing/location_parser.py]
    (class [LocationParser]) and the properties of its extractor, gateway,
    cache and batch orchestrator.

    Modelling conventions.
    - Python [str] values are [string]s; the model covers ASCII text, on
      which [str.lower], [str.strip], [str.split], [\b] and
      [re.IGNORECASE] act character by character.
    - The regular expressions of the module are written out as matchers.
    - The iteration order of a Python [set] and the text an f-string
      produces for a float are decided by the runtime ([PyRuntime]); the
      properties hold for every runtime.
    - Dictionaries with a fixed set of keys are records; the cache is a
      [gmap string GeocodeResult]; coordinates are binary64 floats.
    - Methods take the parser object and the world and return them
      updated; a method that can raise returns an [outcome].
    - The geocoding service and the wall clock are the environment: a
      stream of events, one per outbound attempt, each holding the clock
      readings of the limiter and the answers of the service.  Clock
      readings are exact rationals. *)

From Stdlib Require Import Ascii String NArith QArith Lqa Floats.
From stdpp Require Import base strings list gmap.

Open Scope string_scope.
Open Scope list_scope.
Set Warnings "-inexact-float".

(** ** Python string primitives (ASCII) *)

Module PyStr.

Definition code (c : ascii) : N := N_of_ascii c.

Definition is_upper (c : ascii) : bool := ((65 <=? code c) && (code c <=? 90))%N.
Definition is_lower (c : ascii) : bool := ((97 <=? code c) && (code c <=? 122))%N.
Definition is_digit (c : ascii) : bool := ((48 <=? code c) && (code c <=? 57))%N.

(** [\w] on ASCII text. *)
Definition is_word (c : ascii) : bool :=
  is_upper c || is_lower c || is_digit c || (code c =? 95)%N.

(** [str.isspace] on ASCII text: TAB, LF, VT, FF, CR, FS, GS, RS, US, SPACE. *)
Definition is_space (c : ascii) : bool :=
  ((9 <=? code c) && (code c <=? 13) || (28 <=? code c) && (code c <=? 32))%N.

Definition lower_char (c : ascii) : ascii :=
  if is_upper c then ascii_of_N (code c + 32) else c.

(** [s.lower()] *)
Fixpoint lower (s : string) : string :=
  match s with
  | EmptyString => EmptyString
  | String c s' => String (lower_char c) (lower s')
  end.

Fixpoint lstrip (s : string) : string :=
  match s with
  | EmptyString => EmptyString
  | String c s' => if is_space c then lstrip s' else s
  end.

Fixpoint rstrip (s : string) : string :=
  match s with
  | EmptyString => EmptyString
  | String c s' =>
      match rstrip s' with
      | EmptyString => if is_space c then EmptyString else String c EmptyString
      | r => String c r
      end
  end.

(** [s.strip()] *)
Definition strip (s : string) : string := rstrip (lstrip s).

(** [s.split()]: the maximal runs of non-whitespace characters. *)
Fixpoint split_from (cur : string) (s : string) : list string :=
  match s with
  | EmptyString => match cur with EmptyString => [] | _ => [cur] end
  | String c s' =>
      if is_space c
      then match cur with
           | EmptyString => split_from EmptyString s'
           | _ => cur :: split_from EmptyString s'
           end
      else split_from (cur +:+ String c EmptyString) s'
  end.

Definition split (s : string) : list string := split_from EmptyString s.

(** [s.replace(a, b)] for single characters. *)
Fixpoint replace_char (a b : ascii) (s : string) : string :=
  match s with
  | EmptyString => EmptyString
  | String c s' => String (if Ascii.eqb c a then b else c) (replace_char a b s')
  end.

(** What is left of [s] after the literal [p], when [s] starts with [p]. *)
Fixpoint strip_prefix (p s : string) : option string :=
  match p, s with
  | EmptyString, _ => Some s
  | String a p', String b s' => if Ascii.eqb a b then strip_prefix p' s' else None
  | String _ _, EmptyString => None
  end.

(** [needle in hay] *)
Fixpoint contains (needle hay : string) : bool :=
  match strip_prefix needle hay with
  | Some _ => true
  | None => match hay with
            | EmptyString => false
            | String _ hay' => contains needle hay'
            end
  end.

(** The longest run of [[a-z]] at the head of [s], and the rest. *)
Fixpoint span_lower (s : string) : string * string :=
  match s with
  | EmptyString => (EmptyString, EmptyString)
  | String c s' =>
      if is_lower c
      then let '(run, rest) := span_lower s' in (String c run, rest)
      else (EmptyString, s)
  end.

(** Truthiness of a [str]. *)
Definition truthy (s : string) : bool :=
  match s with EmptyString => false | _ => true end.

End PyStr.

(** ** Regular expressions of the module, as matchers *)

Module Re.
Import PyStr.

(** The capitalised-phrase group, [[A-Z][a-z]+ ?[A-Z]?[a-z]*] in
    parentheses, matched at the head of [s].
    Everything after [[a-z]+] may match the empty string, so the greedy
    choice is the match the backtracking engine reports. *)
Definition match_phrase (s : string) : option string :=
  match s with
  | EmptyString => None
  | String c s1 =>
      if is_upper c then
        let '(l1, s2) := span_lower s1 in
        match l1 with
        | EmptyString => None
        | _ =>
            let '(sp, s3) :=
              match s2 with
              | String c2 r => if Ascii.eqb c2 " " then (" ", r) else ("", s2)
              | EmptyString => ("", s2)
              end in
            let '(up, s4) :=
              match s3 with
              | String c3 r => if is_upper c3 then (String c3 "", r) else ("", s3)
              | EmptyString => ("", s3)
              end in
            let '(l2, _) := span_lower s4 in
            Some (String c (l1 +:+ sp +:+ up +:+ l2))
        end
      else None
  end.

(** A pattern of [LOCATION_PATTERNS], the literal [prep] followed by the
    capitalised-phrase group, matched at the head of [s]. *)
Definition match_pattern (prep : string) (s : string) : option string :=
  match strip_prefix prep s with
  | Some rest => match_phrase rest
  | None => None
  end.

(** [re.findall(pattern, text)]: leftmost matches, not overlapping; [skip]
    counts the characters of the last match still to pass over. *)
Fixpoint findall_pattern (prep : string) (skip : nat) (text : string) : list string :=
  match text with
  | EmptyString => []
  | String _ rest =>
      match skip with
      | S k => findall_pattern prep k rest
      | O =>
          match match_pattern prep text with
          | Some g =>
              g :: findall_pattern prep (String.length prep + String.length g - 1) rest
          | None => findall_pattern prep 0 rest
          end
      end
  end.

(** [[A-Z][a-z]+\b] at the head of [s]. *)
Definition match_word (s : string) : option string :=
  match s with
  | EmptyString => None
  | String c s1 =>
      if is_upper c then
        match span_lower s1 with
        | (EmptyString, _) => None
        | (l1, EmptyString) => Some (String c l1)
        | (l1, String d _) => if is_word d then None else Some (String c l1)
        end
      else None
  end.

(** [re.findall(r'\b[A-Z][a-z]+\b', text)]; [prev_word] tells whether the
    character before the head of [text] is a word character. *)
Fixpoint findall_words (prev_word : bool) (skip : nat) (text : string) : list string :=
  match text with
  | EmptyString => []
  | String c rest =>
      match skip with
      | S k => findall_words (is_word c) k rest
      | O =>
          match (if prev_word then None else match_word text) with
          | Some w => w :: findall_words (is_word c) (String.length w - 1) rest
          | None => findall_words (is_word c) 0 rest
          end
      end
  end.

(** [re.compile(re.escape(location), re.IGNORECASE).search(text)] for a
    lower-case [location]: the first slice of [text] that equals it up to
    case.  Case is that of the ASCII letters: on a text outside ASCII,
    Python also lets the letters U+017F, U+212A, U+0130 and U+0131 match
    [s], [k] and [i], which this matcher does not; statements that depend
    on it are made for ASCII texts, see [isascii]. *)
Fixpoint search_ignorecase (location text : string) : option string :=
  let cand := String.substring 0 (String.length location) text in
  if String.eqb (lower cand) location then Some cand
  else match text with
       | EmptyString => None
       | String _ rest => search_ignorecase location rest
       end.

End Re.

(** ** Module constants *)

(** The prepositions of [LOCATION_PATTERNS], each followed by one space and
    the capitalised-phrase group. *)
Definition LOCATION_PATTERNS : list string :=
  [ "in "; "from "; "at "; "near "; "to "; "visiting ";
    "live in "; "based in "; "located in " ].

(** The elements of the set literal [MAJOR_LOCATIONS], as written. *)
Definition MAJOR_LOCATIONS : list string :=
  [ "new york"; "los angeles"; "chicago"; "houston"; "phoenix"; "philadelphia";
    "san antonio"; "san diego"; "dallas"; "san jose"; "austin"; "san francisco";
    "boston"; "seattle"; "miami"; "atlanta"; "tokyo"; "delhi"; "shanghai"; "sao paulo";
    "mexico city"; "cairo"; "mumbai"; "beijing"; "dhaka"; "osaka"; "london"; "paris";
    "istanbul"; "moscow"; "karachi"; "lagos"; "manila"; "berlin"; "rome"; "madrid";
    "toronto"; "sydney"; "melbourne"; "singapore"; "dubai"; "bangkok"; "hong kong";
    "kuala lumpur"; "jakarta"; "seoul"; "tehran"; "brussels"; "johannesburg"; "kiev";
    "usa"; "united states"; "america"; "canada"; "mexico"; "brazil"; "argentina";
    "uk"; "united kingdom"; "england"; "france"; "germany"; "spain"; "italy";
    "russia"; "china"; "japan"; "india"; "australia"; "south korea"; "north korea";
    "egypt"; "south africa"; "nigeria"; "kenya"; "pakistan"; "bangladesh"; "thailand";
    "vietnam"; "malaysia"; "indonesia"; "philippines"; "new zealand"; "ireland";
    "portugal"; "sweden"; "norway"; "denmark"; "finland"; "belgium"; "netherlands";
    "austria"; "switzerland"; "poland"; "ukraine"; "turkey"; "iran"; "iraq";
    "saudi arabia";
    "uae"; "united arab emirates"; "qatar"; "israel"; "lebanon"; "singapore";
    "california"; "texas"; "florida"; "new york state"; "pennsylvania"; "illinois";
    "ohio"; "georgia"; "north carolina"; "michigan"; "new jersey"; "virginia";
    "washington"; "arizona"; "massachusetts"; "tennessee"; "indiana"; "missouri";
    "maryland"; "wisconsin"; "colorado"; "minnesota"; "south carolina"; "alabama";
    "louisiana"; "kentucky"; "oregon"; "oklahoma"; "connecticut"; "utah"; "iowa";
    "nevada"; "arkansas"; "mississippi"; "kansas"; "new mexico"; "nebraska";
    "west virginia"; "idaho"; "hawaii"; "new hampshire"; "maine"; "montana";
    "rhode island"; "delaware"; "south dakota"; "north dakota"; "alaska"; "vermont";
    "wyoming" ].

Definition IGNORE_LOCATIONS : list string :=
  [ "twitter"; "internet"; "home"; "work"; "everywhere"; "nowhere"; "online";
    "inbox"; "cloud"; "worldwide"; "global"; "earth"; "planet"; "universe";
    "website"; "app"; "web"; "platform"; "social media"; "facebook"; "instagram";
    "snapchat"; "tiktok"; "linkedin"; "youtube"; "twitch"; "reality"; "cyberspace";
    "metaverse"; "matrix"; "zoom"; "microsoft"; "apple"; "google"; "amazon" ].

(** [x in S] for a set of strings. *)
Definition set_mem (x : string) (S : list string) : bool :=
  existsb (String.eqb x) S.

(** ** What the Python runtime decides *)

Class PyRuntime := {
  (** the order in which a set with the given elements is iterated,
      as in [list(set(xs))] and [for x in S] *)
  set_iter : list string → list string;
  set_iter_NoDup : ∀ xs, NoDup (set_iter xs);
  set_iter_elem : ∀ xs x, x ∈ set_iter xs ↔ x ∈ xs;
  (** the text an f-string field produces for a float *)
  float_str : float → string
}.

(** ** Data model *)

Inductive exn : Type :=
  | GeocoderTimedOut
  | GeocoderUnavailable
  | GeocoderServiceError
  | IndexError
  | OtherError.

(** What a call does: return a value or raise. *)
Inductive outcome (A : Type) : Type :=
  | Returns (a : A)
  | Raises (e : exn).
Arguments Returns {A} a.
Arguments Raises {A} e.

(** The object the geocoding client returns on a match. *)
Record Location := {
  loc_address : string;
  loc_latitude : float;
  loc_longitude : float;
  loc_raw : list (string * string)
}.

(** The [raw] entry of a result: the service's own map, or the map that
    [add_known_location] builds. *)
Inductive RawInfo : Type :=
  | ServiceRaw (payload : list (string * string))
  | ManualRaw (place_id display_name : string) (city country : option string).

Record GeocodeResult := {
  input : string;
  address : string;
  latitude : float;
  longitude : float;
  raw : RawInfo
}.

Record Geo := { coordinates : option (list float) }.
Record Place := { full_name : option string }.
Record User := { location : option string; description : option string }.

Record EnrichedLocation := {
  raw_location : option string;
  geocoded : option GeocodeResult
}.

Record Tweet := {
  text : option string;
  geo : option Geo;
  place : option Place;
  user : option User;
  tweet_location : option EnrichedLocation
}.

(** The instance attributes of [LocationParser] that the methods update. *)
Record LocationParser := {
  location_cache : gmap string GeocodeResult;
  request_count : nat;
  last_request_time : Q
}.

(** ** The environment *)

Inductive Reply : Type :=
  | Found (l : Location)
  | NoMatch
  | Fails (e : exn).

(** One outbound attempt as the environment decides it: the clock reading
    on entry to [_respect_rate_limit], how much later than asked the second
    reading comes, and what the service answers to each query. *)
Record Event := {
  t_enter : Q;
  lag : Q;
  reply : string → Reply
}.

(** A query that went out, with the limiter's time stamp taken just
    before it. *)
Record Outbound := {
  stamp : Q;
  query : string;
  answered : bool
}.

(** Process-wide state outside the parser objects: how many events were
    consumed, the queries sent, and the snapshots handed to [json.dump]. *)
Record World := {
  tick : nat;
  wire : list Outbound;
  flushed : list (gmap string GeocodeResult)
}.

Definition Qltb (x y : Q) : bool := negb (Qle_bool y x).

Definition is_found (r : Reply) : bool :=
  match r with Found _ => true | _ => false end.

(** ** class LocationParser *)

Section Parser.
Context `{rt : PyRuntime}.
Import PyStr Re.

(** [_load_cache]: the mapping stored in the cache file, or the empty one
    when the file is missing or cannot be read. *)
Definition _load_cache (stored : option (gmap string GeocodeResult))
  : gmap string GeocodeResult :=
  default ∅ stored.

(** [LocationParser.__init__] *)
Definition new (stored : option (gmap string GeocodeResult)) : LocationParser :=
  {| location_cache := _load_cache stored;
     request_count := 0%nat;
     last_request_time := 0%Q |}.

(** A parser created with no cache file. *)
Definition init : LocationParser := new None.

Definition _save_cache (self : LocationParser) (w : World) : World :=
  {| tick := tick w; wire := wire w;
     flushed := location_cache self :: flushed w |}.

(** The three sources of candidates in [find_locations_in_text], in the
    order the method appends them. *)
Definition pattern_matches (text : string) : list string :=
  flat_map
    (λ prep, List.filter (λ m, negb (set_mem (lower m) IGNORE_LOCATIONS))
                         (findall_pattern prep 0 text))
    LOCATION_PATTERNS.

Definition known_words (text : string) : list string :=
  List.filter
    (λ word, set_mem (lower word) MAJOR_LOCATIONS
             && negb (set_mem (lower word) IGNORE_LOCATIONS))
    (findall_words false 0 text).

(** One round of the loop over [MAJOR_LOCATIONS]: the slice of [text] to
    append for [location], if any. *)
Definition phrase_of (text : string) (location : string) : option string :=
  if contains location (lower text) && negb (set_mem location IGNORE_LOCATIONS)
  then search_ignorecase location text
  else None.

Definition known_phrases (text : string) : list string :=
  omap (phrase_of text) (set_iter MAJOR_LOCATIONS).

Definition find_locations_in_text (text : string) : list string :=
  if truthy text
  then set_iter (pattern_matches text ++ known_words text ++ known_phrases text)
  else [].

Definition extract_location_from_text (text : string) : option string :=
  if truthy text then head (find_locations_in_text text) else None.

Definition extract_location_from_user_profile (user : option User) : option string :=
  match user with
  | None => None
  | Some u =>
      let from_description :=
        match description u with
        | Some d => if truthy d then head (find_locations_in_text d) else None
        | None => None
        end in
      match location u with
      | Some l =>
          if truthy l && negb (set_mem (lower (strip l)) IGNORE_LOCATIONS)
          then Some (strip l)
          else from_description
      | None => from_description
      end
  end.

(** [tweet.get('geo') and tweet['geo'].get('coordinates')] *)
Definition geo_coordinates (tweet : Tweet) : option (list float) :=
  geo tweet ≫= coordinates.

(** [tweet.get('place') and tweet['place'].get('full_name')] *)
Definition place_full_name (tweet : Tweet) : option string :=
  place tweet ≫= full_name.

Definition extract_location_from_tweet (tweet : Tweet) : outcome (option string) :=
  let after_geo :=
    match place_full_name tweet with
    | Some (String c n) => Returns (Some (String c n))
    | _ =>
        match extract_location_from_user_profile (user tweet) with
        | Some (String c l) => Returns (Some (String c l))
        | _ => Returns (extract_location_from_text (default "" (text tweet)))
        end
    end in
  match geo_coordinates tweet with
  | Some (c0 :: c1 :: _) => Returns (Some (float_str c0 +:+ "," +:+ float_str c1))
  | Some [c0] => Raises IndexError
  | Some [] | None => after_geo
  end.

Section Gateway.
Variable env : nat → Event.

Definition _respect_rate_limit (self : LocationParser) (w : World)
  : LocationParser * World :=
  let ev := env (tick w) in
  let current_time := t_enter ev in
  let elapsed := (current_time - last_request_time self)%Q in
  let slept := (if Qltb elapsed 1 then 1 - elapsed else 0)%Q in
  let self1 :=
    {| location_cache := location_cache self;
       request_count := (request_count self + 1)%nat;
       last_request_time := (current_time + slept + lag ev)%Q |} in
  if (request_count self1 mod 10 =? 0)%nat
  then (self1, _save_cache self1 w)
  else (self1, w).

(** [self.geolocator.geocode(term, exactly_one=True)] *)
Definition geocode (self : LocationParser) (w : World) (term : string)
  : Reply * World :=
  let r := reply (env (tick w)) term in
  (r, {| tick := S (tick w);
         wire := {| stamp := last_request_time self; query := term;
                    answered := is_found r |} :: wire w;
         flushed := flushed w |}).

Definition make_result (location_str : string) (location : Location) : GeocodeResult :=
  {| input := location_str;
     address := loc_address location;
     latitude := loc_latitude location;
     longitude := loc_longitude location;
     raw := ServiceRaw (loc_raw location) |}.

(** [self.location_cache[key] = result] *)
Definition store (self : LocationParser) (key : string) (result : GeocodeResult)
  : LocationParser :=
  {| location_cache := <[key := result]> (location_cache self);
     request_count := request_count self;
     last_request_time := last_request_time self |}.

(** The term of the primary query. *)
Definition search_term (location_str : string) : string :=
  if set_mem (lower location_str) MAJOR_LOCATIONS then location_str
  else
    match List.find (λ loc, contains loc (lower location_str))
                    (set_iter MAJOR_LOCATIONS) with
    | Some found_location =>
        if truthy found_location then found_location else location_str
    | None => location_str
    end.

(** The [except] clause of the primary attempt. *)
Definition caught (e : exn) : bool :=
  match e with
  | GeocoderTimedOut | GeocoderUnavailable | GeocoderServiceError => true
  | _ => false
  end.

(** The loop over [words]; its bare [except] swallows every exception. *)
Fixpoint fallback (location_str : string) (words : list string)
    (self : LocationParser) (w : World)
  : option GeocodeResult * LocationParser * World :=
  match words with
  | [] => (None, self, w)
  | word :: rest =>
      if set_mem (lower word) MAJOR_LOCATIONS then
        let '(self1, w1) := _respect_rate_limit self w in
        let '(r, w2) := geocode self1 w1 word in
        match r with
        | Found location =>
            let result := make_result location_str location in
            (Some result, store self1 location_str result, w2)
        | NoMatch | Fails _ => fallback location_str rest self1 w2
        end
      else fallback location_str rest self w
  end.

(** The code after the primary [try] statement. *)
Definition focused_retry (location_str : string) (self : LocationParser) (w : World)
  : option GeocodeResult * LocationParser * World :=
  let words := split location_str in
  if (1 <? length words)%nat then fallback location_str words self w
  else (None, self, w).

Definition geocode_location (self : LocationParser) (w : World) (location_str : string)
  : outcome (option GeocodeResult) * LocationParser * World :=
  match location_cache self !! location_str with
  | Some cached => (Returns (Some cached), self, w)
  | None =>
      if negb (truthy location_str) then (Returns None, self, w)
      else
        let '(self1, w1) := _respect_rate_limit self w in
        let '(r, w2) := geocode self1 w1 (search_term location_str) in
        match r with
        | Found location =>
            let result := make_result location_str location in
            (Returns (Some result), store self1 location_str result, w2)
        | NoMatch =>
            let '(res, self2, w3) := focused_retry location_str self1 w2 in
            (Returns res, self2, w3)
        | Fails e =>
            if caught e then
              let '(res, self2, w3) := focused_retry location_str self1 w2 in
              (Returns res, self2, w3)
            else (Raises e, self1, w2)
        end
  end.

Definition with_location (tweet : Tweet) (l : EnrichedLocation) : Tweet :=
  {| text := text tweet; geo := geo tweet; place := place tweet;
     user := user tweet; tweet_location := Some l |}.

Definition parse_tweet_location (self : LocationParser) (w : World) (tweet : Tweet)
  : outcome Tweet * LocationParser * World :=
  match extract_location_from_tweet tweet with
  | Raises e => (Raises e, self, w)
  | Returns location_str =>
      match location_str with
      | Some s =>
          if truthy s then
            match geocode_location self w s with
            | (Returns geocoded_data, self1, w1) =>
                (Returns (with_location tweet
                            {| raw_location := location_str;
                               geocoded := geocoded_data |}), self1, w1)
            | (Raises e, self1, w1) => (Raises e, self1, w1)
            end
          else (Returns (with_location tweet
                           {| raw_location := location_str; geocoded := None |}),
                self, w)
      | None =>
          (Returns (with_location tweet
                      {| raw_location := None; geocoded := None |}), self, w)
      end
  end.

(** The loop of [parse_tweets_location]; an exception leaves it. *)
Fixpoint parse_each (self : LocationParser) (w : World) (tweets : list Tweet)
  : outcome (list Tweet) * LocationParser * World :=
  match tweets with
  | [] => (Returns [], self, w)
  | tweet :: rest =>
      match parse_tweet_location self w tweet with
      | (Returns t, self1, w1) =>
          match parse_each self1 w1 rest with
          | (Returns ts, self2, w2) => (Returns (t :: ts), self2, w2)
          | (Raises e, self2, w2) => (Raises e, self2, w2)
          end
      | (Raises e, self1, w1) => (Raises e, self1, w1)
      end
  end.

Definition parse_tweets_location (self : LocationParser) (w : World)
    (tweets : list Tweet)
  : outcome (list Tweet) * LocationParser * World :=
  match parse_each self w tweets with
  | (Returns result, self1, w1) => (Returns result, self1, _save_cache self1 w1)
  | (Raises e, self1, w1) => (Raises e, self1, w1)
  end.

Definition extract_and_save_coordinates (self : LocationParser) (w : World)
    (location_str : string)
  : outcome (option GeocodeResult) * LocationParser * World :=
  match geocode_location self w location_str with
  | (Returns (Some result), self1, w1) =>
      (Returns (Some result), self1, _save_cache self1 w1)
  | other => other
  end.

End Gateway.

(** [or] on an optional string: the first operand when it is truthy. *)
Definition or_else (a : option string) (b : string) : string :=
  match a with
  | Some s => if truthy s then s else b
  | None => b
  end.

Definition variations (location_str : string) : list string :=
  [ "in " +:+ location_str; "from " +:+ location_str; "at " +:+ location_str;
    "near " +:+ location_str; "to " +:+ location_str ].

Definition add_known_location (self : LocationParser) (w : World)
    (location_str : string) (latitude longitude : float)
    (address city country : option string)
  : LocationParser * World :=
  let address := or_else address (or_else city "" +:+ ", " +:+ or_else country "") in
  let raw :=
    ManualRaw ("manual_" +:+ replace_char " " "_" location_str) address city country in
  let result :=
    {| input := location_str; address := address; latitude := latitude;
       longitude := longitude; raw := raw |} in
  let self1 := store self location_str result in
  let w1 := _save_cache self1 w in
  let self2 := foldl (λ s var, store s var result) self1 (variations location_str) in
  (self2, _save_cache self2 w1).

End Parser.

(** ** Callers: the location columns of a stored tweet

    [update_tweet_sentiment_location] in [process_tweets.py], and
    [insert_tweet] and [insert_tweets] in [db/db_writer.py], turn the
    ['location'] entry that [parse_tweet_location] attaches into the seven
    location columns of the [tweets] table, with the same statements. *)

Module Callers.
Import PyStr.

(** [s.split(', ')] *)
Fixpoint split_comma (s : string) : list string :=
  match s with
  | EmptyString => [EmptyString]
  | String c s' =>
      let extend :=
        match split_comma s' with
        | part :: parts => String c part :: parts
        | [] => [String c EmptyString]
        end in
      if Ascii.eqb c ","
      then match s' with
           | String c' rest =>
               if Ascii.eqb c' " " then EmptyString :: split_comma rest else extend
           | EmptyString => extend
           end
      else extend
  end.

(** [parts[-k]] *)
Definition from_end {A} (parts : list A) (k : nat) : option A :=
  if (k <=? length parts)%nat then parts !! (length parts - k)%nat else None.

(** [geocoded.get('latitude')], [geocoded.get('longitude')] *)
Definition geocoded_latitude (g : GeocodeResult) : float := latitude g.
Definition geocoded_longitude (g : GeocodeResult) : float := longitude g.

Record LocationColumns := {
  location_raw : option string;
  location_address : option string;
  latitude : option float;
  longitude : option float;
  country : option string;
  state_province : option string;
  city : option string
}.

(** The statements from [location_raw = ...] to the last [elif];
    [location_data] is [None] for a missing or empty dictionary. *)
Definition location_columns (location_data : option EnrichedLocation)
  : LocationColumns :=
  match location_data with
  | None =>
      {| location_raw := None; location_address := None; latitude := None;
         longitude := None; country := None; state_province := None;
         city := None |}
  | Some d =>
      match geocoded d with
      | None =>
          {| location_raw := raw_location d; location_address := None;
             latitude := None; longitude := None; country := None;
             state_province := None; city := None |}
      | Some g =>
          let location_address := address g in
          let address_parts :=
            if truthy location_address then split_comma location_address else [] in
          let '(city, state_province, country) :=
            if (3 <=? length address_parts)%nat then
              (from_end address_parts 3, from_end address_parts 2,
               from_end address_parts 1)
            else if (length address_parts =? 2)%nat then
              (None, address_parts !! 0%nat, address_parts !! 1%nat)
            else if (length address_parts =? 1)%nat then
              (None, None, address_parts !! 0%nat)
            else (None, None, None) in
          {| location_raw := raw_location d;
             location_address := Some location_address;
             latitude := Some (geocoded_latitude g);
             longitude := Some (geocoded_longitude g);
             country := country; state_province := state_province;
             city := city |}
      end
  end.

End Callers.

(** * Vocabulary of the properties *)

(** The candidates of [find_locations_in_text] with the gazetteer read in
    the order it is written; the runtime's order only permutes them. *)
Definition candidates (text : string) : list string :=
  pattern_matches text ++ known_words text ++ omap (phrase_of text) MAJOR_LOCATIONS.

(** The extractor as the specification words it: five signals in
    priority order, the first non-empty one wins. *)
Module SpecExtractor.
Section Cascade.
Context `{rt : PyRuntime}.
Import PyStr.

Definition coordinates_signal (t : Tweet) : option string :=
  match geo_coordinates t with
  | Some (lat :: lon :: _) => Some (float_str lat +:+ "," +:+ float_str lon)
  | _ => None
  end.

Definition place_signal (t : Tweet) : option string := place_full_name t.

Definition profile_location_signal (t : Tweet) : option string :=
  match user t ≫= location with
  | Some l =>
      if truthy l && negb (set_mem (lower (strip l)) IGNORE_LOCATIONS)
      then Some (strip l) else None
  | None => None
  end.

Definition biography_signal (t : Tweet) : option string :=
  (user t ≫= description) ≫= extract_location_from_text.

Definition body_signal (t : Tweet) : option string :=
  extract_location_from_text (default "" (text t)).

Fixpoint first_non_empty (signals : list (option string)) : option string :=
  match signals with
  | [] => None
  | Some (String c s) :: _ => Some (String c s)
  | _ :: rest => first_non_empty rest
  end.

Definition extract (t : Tweet) : option string :=
  first_non_empty
    [ coordinates_signal t; place_signal t; profile_location_signal t;
      biography_signal t; body_signal t ].

End Cascade.
End SpecExtractor.

(** The coordinates of the post, if any, are a pair at least. *)
Definition well_formed (t : Tweet) : Prop :=
  ∀ c0, geo_coordinates t ≠ Some [c0].

(** The post carries no usable coordinates, no usable place name. *)
Definition no_coordinates (t : Tweet) : Prop :=
  geo_coordinates t = None ∨ geo_coordinates t = Some [].

Definition no_place_name (t : Tweet) : Prop :=
  place_full_name t = None ∨ place_full_name t = Some "".

(** The profile step does not return early with an empty string exactly
    when the location field, if it passes the test, is not blank. *)
Definition profile_location_not_blank (t : Tweet) : Prop :=
  ∀ l, user t ≫= location = Some l →
       PyStr.truthy l = true → PyStr.truthy (PyStr.strip l) = true.

(** [k] outbound attempts lie between two states of a parser and the
    world: each one counted, each one a query on the wire, and a flush
    each time the count reaches a multiple of ten. *)
Definition attempts (k : nat) (self : LocationParser) (w : World)
    (self' : LocationParser) (w' : World) : Prop :=
  request_count self' = (request_count self + k)%nat
  ∧ tick w' = (tick w + k)%nat
  ∧ length (wire w') = (length (wire w) + k)%nat
  ∧ (length (flushed w') + request_count self / 10
     = length (flushed w) + request_count self' / 10)%nat.

(** Queries on the wire that the service answered with a match. *)
Definition successful_queries (w : World) : nat :=
  length (List.filter answered (wire w)).

(** The service raises nothing but the errors the primary attempt catches. *)
Definition only_transient (env : nat → Event) : Prop :=
  ∀ n term e, reply (env n) term = Fails e → caught e = true.


(** The result that [add_known_location] builds. *)
Definition known_result (location_str : string) (latitude longitude : float)
    (address city country : option string) : GeocodeResult :=
  let address := or_else address (or_else city "" +:+ ", " +:+ or_else country "") in
  {| input := location_str; address := address; latitude := latitude;
     longitude := longitude;
     raw := ManualRaw ("manual_" +:+ PyStr.replace_char " " "_" location_str)
                      address city country |}.

(** The key of an entry is the input of its result or one of the five
    variations of that input. *)
Definition keyed (key : string) (r : GeocodeResult) : Prop :=
  key = input r ∨ key ∈ variations (input r).

(** [stamps], oldest first, each at least one second after the one
    before it, the first at least one second after [last]. *)
Fixpoint spaced_from (last : Q) (stamps : list Q) : Prop :=
  match stamps with
  | [] => True
  | t :: rest => (last + 1 <= t)%Q ∧ spaced_from t rest
  end.

(** The stamp the limiter holds after [stamps], oldest first. *)
Definition latest (last : Q) (stamps : list Q) : Q := foldl (λ _ t, t) last stamps.

(** The clock does not run backwards and [time.sleep] does not return
    early: the second reading of the limiter is not before the first
    reading plus the time slept. *)
Definition clock_sound (env : nat → Event) : Prop := ∀ n, (0 <= lag (env n))%Q.

(** The queries [sent], oldest first, are what lies between the two
    states; they are spaced from the stamp the parser held before, and the
    parser holds the stamp of the last one. *)
Definition limited (self : LocationParser) (w : World)
    (self' : LocationParser) (w' : World) : Prop :=
  ∃ sent : list Outbound,
    wire w' = reverse sent ++ wire w
    ∧ spaced_from (last_request_time self) (stamp <$> sent)
    ∧ last_request_time self' = latest (last_request_time self) (stamp <$> sent).

(** [text.isascii()] *)
Fixpoint isascii (text : string) : bool :=
  match text with
  | EmptyString => true
  | String (Ascii _ _ _ _ _ _ _ b7) rest => negb b7 && isascii rest
  end.

(** A token that the fallback loop retries: in lower case, a gazetteer
    entry. *)
Definition gazetteer_token (word : string) : bool :=
  set_mem (PyStr.lower word) MAJOR_LOCATIONS.



(** A query that a gateway call on [location_str] may send: the term of
    the primary attempt or a gazetteer token of the string. *)
Definition allowed_query `{rt : PyRuntime} (location_str : string) (o : Outbound)
  : Prop :=
  query o = search_term location_str
  ∨ (query o ∈ PyStr.split location_str ∧ gazetteer_token (query o) = true).

Definition unanswered (o : Outbound) : Prop := answered o = false.

(** The queries [sent], newest first: when a result was [found], the
    last one sent is the only one answered; otherwise none is. *)
Definition first_success (sent : list Outbound) (found : bool) : Prop :=
  if found
  then ∃ o older, sent = o :: older ∧ answered o = true ∧ Forall unanswered older
  else Forall unanswered sent.

(** The entries of [after] are those of [before], unchanged, and new
    ones stored under the input string of their result. *)
Definition grown (before after : gmap string GeocodeResult) : Prop :=
  before ⊆ after
  ∧ ∀ key r, after !! key = Some r → before !! key = Some r ∨ input r = key.

(** [', '.join(parts)] *)
Fixpoint join_comma (parts : list string) : string :=
  match parts with
  | [] => ""
  | [part] => part
  | part :: rest => part +:+ ", " +:+ join_comma rest
  end.

(** The separator does not occur in [part]. *)
Definition comma_free (part : string) : Prop :=
  PyStr.contains ", " part = false.

(** * A runtime, environments and runs for the examples *)

Module Sample.

(** First-occurrence order for sets; floats of the examples printed as
    Python prints them. *)
Definition float_text (x : float) : string :=
  if PrimFloat.eqb x 51.5074 then "51.5074"
  else if PrimFloat.eqb x (-0.1278) then "-0.1278"
  else if PrimFloat.eqb x 40.7128 then "40.7128"
  else if PrimFloat.eqb x (-74.006) then "-74.006"
  else "nan".

#[export] Instance runtime : PyRuntime := {|
  set_iter := remove_dups;
  set_iter_NoDup := NoDup_remove_dups;
  set_iter_elem := λ xs x, elem_of_remove_dups xs x;
  float_str := float_text
|}.

Definition london : Location :=
  {| loc_address := "London, Greater London, England, United Kingdom";
     loc_latitude := 51.5074; loc_longitude := -0.1278;
     loc_raw := [("osm_type", "relation")] |}.

Definition new_york : Location :=
  {| loc_address := "City of New York, New York, United States";
     loc_latitude := 40.7128; loc_longitude := -74.006;
     loc_raw := [("osm_type", "relation")] |}.

(** A service that knows two cities by their exact lower-case or
    capitalised names. *)
Definition atlas (term : string) : Reply :=
  if String.eqb (PyStr.lower term) "london" then Found london
  else if String.eqb (PyStr.lower term) "new york" then Found new_york
  else NoMatch.

(** Queries one second apart on an exact clock. *)
Definition steady (n : nat) : Event :=
  {| t_enter := 1000 + inject_Z (Z.of_nat n); lag := 0; reply := atlas |}.

(** Calls a tenth of a second apart; the first query times out. *)
Definition flaky (n : nat) : Event :=
  {| t_enter := 1000 + inject_Z (Z.of_nat n) / 10; lag := 0;
     reply := match n with
              | O => λ _, Fails GeocoderTimedOut
              | S _ => atlas
              end |}.

Definition world0 : World := {| tick := 0; wire := []; flushed := [] |}.

Definition tweet_at (place_name : string) : Tweet :=
  {| text := Some "What a game tonight"; geo := None;
     place := Some {| full_name := Some place_name |};
     user := None; tweet_location := None |}.

(** The service is unavailable. *)
Definition down (n : nat) : Event :=
  {| t_enter := 1000 + inject_Z (Z.of_nat n); lag := 0;
     reply := λ _, Fails GeocoderUnavailable |}.


(** A profile whose location field holds one space, a biography that
    names a city, and a body that names none. *)
Definition blank_location_tweet : Tweet :=
  {| text := Some "What a game tonight";
     geo := None; place := None;
     user := Some {| location := Some " ";
                     description := Some "I live in London" |};
     tweet_location := None |}.

(** The gateway on a fresh parser: the primary query for "london" times
    out, the token "London" is found. *)
Definition calling :=
  geocode_location (rt := runtime) flaky init world0 "London calling".

(** London inserted by hand into the cache of a fresh parser. *)
Definition london_inserted : LocationParser :=
  (add_known_location init world0 "London" 51.5074 (-0.1278)
     None (Some "London") (Some "United Kingdom")).1.

(** Two parser objects in one process, each about to send its first
    query, two tenths of a second apart on an exact clock. *)
Definition parser_a : LocationParser := init.
Definition parser_b : LocationParser := init.

Definition busy (n : nat) : Event :=
  {| t_enter := 1000 + inject_Z (Z.of_nat n) * (2 # 10); lag := 0; reply := atlas |}.

Definition after_a := geocode_location (rt := runtime) busy parser_a world0 "Paris".
Definition after_b := geocode_location (rt := runtime) busy parser_b after_a.2 "Rome".

(** A parser that has sent nine queries in vain, and its tenth query,
    which finds London. *)
Definition after_nine : LocationParser :=
  (parse_each (rt := runtime) down init world0
     (replicate 9 (tweet_at "Atlantis"))).1.2.

Definition tenth :=
  geocode_location (rt := runtime) steady after_nine world0 "London".

(** Ten posts placed in Atlantis while the service is down, on a fresh
    parser. *)
Definition atlantis_pass :=
  parse_tweets_location (rt := runtime) down init world0
    (replicate 10 (tweet_at "Atlantis")).

(** A string the service does not know. *)
Definition atlantis :=
  geocode_location (rt := runtime) steady init world0 "Atlantis".

(** The post of the module's own example. *)
Definition manchester_tweet : Tweet :=
  {| text := Some "Amazing match today in London! The team played brilliantly! #GoTeam";
     geo := None; place := None;
     user := Some {| location := Some "  Manchester, UK "; description := None |};
     tweet_location := None |}.

(** A pass over three posts, two of them placed in London, on a fresh
    parser with the service up. *)
Definition london_pass :=
  parse_tweets_location (rt := runtime) steady init world0
    [tweet_at "London"; tweet_at "Atlantis"; tweet_at "London"].

(** One post placed in London, on a fresh parser. *)
Definition london_post :=
  parse_tweet_location (rt := runtime) steady init world0 (tweet_at "London").

(** A known city geocoded and saved. *)
Definition saved :=
  extract_and_save_coordinates (rt := runtime) steady init world0 "new york".

(** What [parse_tweet_location] attaches for London inserted by hand with
    its city and country. *)
Definition london_by_hand : EnrichedLocation :=
  {| raw_location := Some "London";
     geocoded := Some (known_result "London" 51.5074 (-0.1278) None
                         (Some "London") (Some "United Kingdom")) |}.

End Sample.

(** * Properties *)

(** A call returned its outcome, its parser and its world: name them. *)
Ltac returned := intros [= <- <- <-].

(** ** Text mining *)

Section TextMining.
Context `{rt : PyRuntime}.
Import PyStr Re.

Lemma match_phrase_truthy s g : match_phrase s = Some g → truthy g = true.
Proof.
  destruct s as [|c s1]; simpl; [done|].
  destruct (is_upper c); [|done].
  destruct (span_lower s1) as [l1 s2]. destruct l1; [done|].
  repeat case_match; intros [= <-]; done.
Qed.

Lemma match_word_truthy s g : match_word s = Some g → truthy g = true.
Proof.
  destruct s as [|c s1]; simpl; [done|].
  repeat case_match; intros [= <-]; done.
Qed.

Lemma findall_pattern_truthy prep text :
  ∀ skip g, In g (findall_pattern prep skip text) → truthy g = true.
Proof.
  induction text as [|c rest IH]; intros skip g; cbn [findall_pattern]; [done|].
  destruct skip as [|k]; [|apply IH].
  unfold match_pattern.
  destruct (strip_prefix prep (String c rest)) as [r|]; [|apply IH].
  destruct (match_phrase r) as [m|] eqn:E; [|apply IH].
  intros [<-|Hin]; [by eapply match_phrase_truthy | by eapply IH].
Qed.

Lemma findall_words_truthy text :
  ∀ prev skip g, In g (findall_words prev skip text) → truthy g = true.
Proof.
  induction text as [|c rest IH]; intros prev skip g; cbn [findall_words]; [done|].
  destruct skip as [|k]; [|apply IH].
  destruct prev; [apply IH|].
  destruct (match_word (String c rest)) as [m|] eqn:E; [|apply IH].
  intros [<-|Hin]; [by eapply match_word_truthy | by eapply IH].
Qed.

Lemma search_ignorecase_lower location text g :
  search_ignorecase location text = Some g → lower g = location.
Proof.
  induction text as [|c rest IH].
  - cbn -[String.substring String.eqb lower].
    case_match eqn:E; [|done]. intros [= <-]. by apply String.eqb_eq.
  - cbn -[String.substring String.eqb lower].
    case_match eqn:E; [|exact IH]. intros [= <-]. by apply String.eqb_eq.
Qed.

Lemma MAJOR_LOCATIONS_truthy location :
  location ∈ MAJOR_LOCATIONS → truthy location = true.
Proof.
  intros Hin. apply list_elem_of_In in Hin.
  assert (Hall : forallb truthy MAJOR_LOCATIONS = true) by (vm_compute; reflexivity).
  rewrite forallb_forall in Hall. by apply Hall.
Qed.

Lemma phrase_of_truthy text location g :
  location ∈ MAJOR_LOCATIONS → phrase_of text location = Some g → truthy g = true.
Proof.
  intros Hin. unfold phrase_of. case_match; [|done].
  intros Hs. apply search_ignorecase_lower in Hs.
  apply MAJOR_LOCATIONS_truthy in Hin. rewrite <- Hs in Hin.
  by destruct g.
Qed.

Lemma elem_of_find_locations text g :
  g ∈ find_locations_in_text text ↔ truthy text = true ∧ g ∈ candidates text.
Proof.
  unfold find_locations_in_text, candidates, known_phrases.
  destruct (truthy text).
  - rewrite set_iter_elem, !elem_of_app, !list_elem_of_omap.
    setoid_rewrite set_iter_elem. tauto.
  - split; [by intros ?%elem_of_nil | by intros [? _]].
Qed.

Lemma candidates_truthy text g : g ∈ candidates text → truthy g = true.
Proof.
  unfold candidates, pattern_matches, known_words.
  rewrite !elem_of_app, list_elem_of_omap.
  intros [Hp|[Hw|(location & Hin & Hph)]].
  - apply list_elem_of_In, in_flat_map in Hp as (prep & _ & Hp).
    apply filter_In in Hp as [Hp _]. by eapply findall_pattern_truthy.
  - apply list_elem_of_In, filter_In in Hw as [Hw _].
    by eapply findall_words_truthy.
  - by eapply phrase_of_truthy.
Qed.

(** No candidate is an ignore-listed term. *)
Lemma candidates_not_ignored text g :
  g ∈ candidates text → set_mem (lower g) IGNORE_LOCATIONS = false.
Proof.
  unfold candidates, pattern_matches, known_words.
  rewrite !elem_of_app, list_elem_of_omap.
  intros [Hp|[Hw|(location & Hin & Hph)]].
  - apply list_elem_of_In, in_flat_map in Hp as (prep & _ & Hp).
    apply filter_In in Hp as [_ Hp]. by apply negb_true_iff.
  - apply list_elem_of_In, filter_In in Hw as [_ Hw].
    apply andb_true_iff in Hw as [_ Hw]. by apply negb_true_iff.
  - unfold phrase_of in Hph. case_match eqn:Hc; [|done].
    apply andb_true_iff in Hc as [_ Hc]. apply negb_true_iff in Hc.
    apply search_ignorecase_lower in Hph. by rewrite Hph.
Qed.

Lemma head_find_locations_not_ignored text g :
  head (find_locations_in_text text) = Some g →
  set_mem (lower g) IGNORE_LOCATIONS = false.
Proof.
  intros Hh. apply (candidates_not_ignored text).
  apply (elem_of_find_locations text g).
  destruct (find_locations_in_text text); simplify_eq/=. by left.
Qed.

(** Every candidate that text mining returns is a non-empty string. *)
Lemma find_locations_truthy text g :
  g ∈ find_locations_in_text text → truthy g = true.
Proof. intros [_ Hin]%elem_of_find_locations. by eapply candidates_truthy. Qed.

Lemma head_find_locations_truthy text g :
  head (find_locations_in_text text) = Some g → truthy g = true.
Proof.
  intros Hh. apply (find_locations_truthy text).
  destruct (find_locations_in_text text); simplify_eq/=. by left.
Qed.

(** Text mining finds nothing exactly when there is no candidate. *)
Lemma find_locations_nil text :
  find_locations_in_text text = [] ↔ truthy text = false ∨ candidates text = [].
Proof.
  split.
  - intros Hnil. destruct (truthy text) eqn:Et; [right|by left].
    destruct (candidates text) as [|g gs] eqn:Ec; [done|].
    assert (g ∈ find_locations_in_text text) as Hin.
    { apply elem_of_find_locations. rewrite Ec. split; [done|by left]. }
    rewrite Hnil in Hin. by apply elem_of_nil in Hin.
  - intros Hor. destruct (find_locations_in_text text) as [|g gs] eqn:Ef; [done|].
    assert (g ∈ find_locations_in_text text) as Hin by (rewrite Ef; by left).
    apply elem_of_find_locations in Hin as [Ht Hc].
    destruct Hor as [Hf|Hc0]; [congruence|]. rewrite Hc0 in Hc.
    by apply elem_of_nil in Hc.
Qed.

(** When all candidates are one and the same string, every runtime
    returns the list holding just that string. *)
Lemma find_locations_single text g :
  truthy text = true → candidates text ≠ [] →
  Forall (λ x, x = g) (candidates text) →
  find_locations_in_text text = [g].
Proof.
  intros Ht Hne Hall.
  assert (Hel : ∀ x, x ∈ find_locations_in_text text → x = g).
  { intros x [_ Hx]%elem_of_find_locations.
    rewrite Forall_forall in Hall. by apply Hall. }
  assert (Hnd : NoDup (find_locations_in_text text)).
  { unfold find_locations_in_text. rewrite Ht. apply set_iter_NoDup. }
  destruct (find_locations_in_text text) as [|a l] eqn:Ef.
  - apply find_locations_nil in Ef as [?|?]; congruence.
  - assert (a = g) as -> by (apply Hel; by left).
    destruct l as [|b l]; [done|].
    assert (b = g) as -> by (apply Hel; right; by left).
    apply NoDup_cons in Hnd as [Hnin _]. exfalso. apply Hnin. by left.
Qed.

End TextMining.

(** ** The extractor *)

Section Extractor.
Context `{rt : PyRuntime}.
Import PyStr.

(** Explicit coordinates win over every other signal, whatever the rest
    of the post holds. *)
Lemma coordinates_first (t : Tweet) lat lon more :
  geo_coordinates t = Some (lat :: lon :: more) →
  extract_location_from_tweet t
  = Returns (Some (float_str lat +:+ "," +:+ float_str lon)).
Proof. intros Hg. unfold extract_location_from_tweet. by rewrite Hg. Qed.

Lemma place_second (t : Tweet) n :
  no_coordinates t → place_full_name t = Some n → truthy n = true →
  extract_location_from_tweet t = Returns (Some n).
Proof.
  intros [Hg|Hg] Hp Hn; unfold extract_location_from_tweet;
    rewrite Hg, Hp; by destruct n.
Qed.

Lemma extract_from_description (d : string) :
  (if truthy d then head (find_locations_in_text d) else None)
  = extract_location_from_text d.
Proof. done. Qed.

Lemma extract_location_from_text_truthy text g :
  extract_location_from_text text = Some g → truthy g = true.
Proof.
  unfold extract_location_from_text. case_match; [|done].
  apply head_find_locations_truthy.
Qed.

Lemma first_non_empty_last (o : option string) :
  (∀ g, o = Some g → truthy g = true) → SpecExtractor.first_non_empty [o] = o.
Proof. destruct o as [[|c g]|]; [intros Ht; by specialize (Ht _ eq_refl)|done..]. Qed.

Lemma body_signal_last (t : Tweet) :
  SpecExtractor.first_non_empty [SpecExtractor.body_signal t]
  = extract_location_from_text (default "" (text t)).
Proof. apply first_non_empty_last, extract_location_from_text_truthy. Qed.

(** The part of the cascade below the place name. *)
Lemma profile_is_cascade (t : Tweet) :
  profile_location_not_blank t →
  match extract_location_from_user_profile (user t) with
  | Some (String c l) => Some (String c l)
  | _ => extract_location_from_text (default "" (text t))
  end
  = SpecExtractor.first_non_empty
      [ SpecExtractor.profile_location_signal t; SpecExtractor.biography_signal t;
        SpecExtractor.body_signal t ].
Proof.
  intros Hnb. rewrite <- body_signal_last.
  unfold SpecExtractor.profile_location_signal, SpecExtractor.biography_signal,
    extract_location_from_user_profile, profile_location_not_blank in *.
  destruct (user t) as [u|]; cbn [mbind option_bind] in *; [|done].
  assert (Hbio :
    match match description u with
          | Some d => if truthy d then head (find_locations_in_text d) else None
          | None => None
          end with
    | Some (String c l) => Some (String c l)
    | _ => SpecExtractor.first_non_empty [SpecExtractor.body_signal t]
    end
    = SpecExtractor.first_non_empty
        [ description u ≫= extract_location_from_text; SpecExtractor.body_signal t ]).
  { destruct (description u) as [d|]; cbn [mbind option_bind]; [|done].
    rewrite extract_from_description.
    by destruct (extract_location_from_text d) as [[|c g]|]. }
  destruct (location u) as [l|]; [|exact Hbio].
  destruct (truthy l) eqn:Htl; cbn [andb]; [|exact Hbio].
  destruct (set_mem (lower (strip l)) IGNORE_LOCATIONS); cbn [negb]; [exact Hbio|].
  specialize (Hnb l eq_refl Htl). by destruct (strip l).
Qed.

Lemma first_non_empty_skip (o : option string) rest :
  o = None ∨ o = Some "" →
  SpecExtractor.first_non_empty (o :: rest) = SpecExtractor.first_non_empty rest.
Proof. by intros [->| ->]. Qed.

Lemma first_non_empty_take (g : string) rest :
  truthy g = true → SpecExtractor.first_non_empty (Some g :: rest) = Some g.
Proof. by destruct g. Qed.

(** On posts with well-formed coordinates and no blank profile location
    the method is the cascade of the specification. *)
Lemma extract_is_cascade (t : Tweet) :
  well_formed t →
  profile_location_not_blank t →
  extract_location_from_tweet t = Returns (SpecExtractor.extract t).
Proof.
  intros Hwf Hnb. apply profile_is_cascade in Hnb.
  unfold extract_location_from_tweet, SpecExtractor.extract.
  destruct (geo_coordinates t) as [[|c0 [|c1 more]]|] eqn:Hg.
  2: by destruct (Hwf c0).
  2: { unfold SpecExtractor.coordinates_signal. rewrite Hg.
       rewrite first_non_empty_take; [done|by destruct (float_str c0)]. }
  all: rewrite (first_non_empty_skip (SpecExtractor.coordinates_signal t))
         by (unfold SpecExtractor.coordinates_signal; rewrite Hg; by left).
  all: unfold SpecExtractor.place_signal.
  all: destruct (place_full_name t) as [[|c n]|] eqn:Hp;
         [ rewrite first_non_empty_skip by (by right)
         | by rewrite first_non_empty_take
         | rewrite first_non_empty_skip by (by left) ].
  all: rewrite <- Hnb.
  all: by destruct (extract_location_from_user_profile (user t)) as [[|? ?]|].
Qed.

(** C1 (the code departs from the claim).  The claim: the extractor
    tries coordinates, place name, profile location, profile biography and
    post body in this order and returns the first non-empty result.  On
    [Sample.blank_location_tweet] the first non-empty signal is the biography
    mention "London", which is what the cascade of the specification
    yields; the method returns no candidate, on every runtime:
    [extract_location_from_user_profile] tests the location field for
    emptiness before trimming it and returns the trimmed, empty string, so
    the biography is never mined. *)
Theorem blank_profile_location_skips_biography :
  SpecExtractor.biography_signal Sample.blank_location_tweet = Some "London"
  ∧ SpecExtractor.extract Sample.blank_location_tweet = Some "London"
  ∧ extract_location_from_user_profile (user Sample.blank_location_tweet) = Some ""
  ∧ extract_location_from_tweet Sample.blank_location_tweet = Returns None.
Proof.
  assert (Hbio : find_locations_in_text "I live in London" = ["London"]).
  { apply find_locations_single; [done|by vm_compute|].
    vm_compute. repeat constructor. }
  assert (Hbody : find_locations_in_text "What a game tonight" = []).
  { apply find_locations_nil. right. by vm_compute. }
  assert (Hsig : SpecExtractor.biography_signal Sample.blank_location_tweet
                 = Some "London").
  { unfold SpecExtractor.biography_signal, extract_location_from_text.
    cbn [Sample.blank_location_tweet user description mbind option_bind truthy].
    by rewrite Hbio. }
  split; [exact Hsig|]. split; [|split].
  - unfold SpecExtractor.extract.
    rewrite (first_non_empty_skip (SpecExtractor.coordinates_signal _)) by (by left).
    rewrite (first_non_empty_skip (SpecExtractor.place_signal _)) by (by left).
    rewrite (first_non_empty_skip (SpecExtractor.profile_location_signal _))
      by (by right).
    by rewrite Hsig.
  - done.
  - unfold extract_location_from_tweet, extract_location_from_text.
    cbn -[find_locations_in_text]. by rewrite Hbody.
Qed.

(** C8.  When the profile location field of a post is an ignore-listed
    term (compared trimmed and in lower case), the profile step yields
    what mining the biography yields; with no coordinates and no place
    name on the post the extractor returns the biography candidate if
    there is one and otherwise what mining the body yields, it returns
    none exactly when both are empty, and what it returns is never an
    ignore-listed term. *)
Theorem ignored_profile_location_falls_through (t : Tweet) (u : User) (l : string) :
  user t = Some u →
  location u = Some l →
  set_mem (lower (strip l)) IGNORE_LOCATIONS = true →
  let biography := description u ≫= extract_location_from_text in
  let body := extract_location_from_text (default "" (text t)) in
  extract_location_from_user_profile (Some u) = biography
  ∧ (no_coordinates t → no_place_name t →
     extract_location_from_tweet t
       = Returns (match biography with Some g => Some g | None => body end)
     ∧ (extract_location_from_tweet t = Returns None
        ↔ biography = None ∧ body = None)
     ∧ (∀ g, extract_location_from_tweet t = Returns (Some g) →
             set_mem (lower g) IGNORE_LOCATIONS = false)).
Proof.
  intros Hu Hl Hig biography body.
  assert (Hprof : extract_location_from_user_profile (Some u) = biography).
  { unfold extract_location_from_user_profile. rewrite Hl, Hig.
    rewrite andb_false_r. subst biography.
    by destruct (description u). }
  split; [exact Hprof|]. intros Hg Hp.
  assert (Hex : extract_location_from_tweet t
                = Returns (match biography with Some g => Some g | None => body end)).
  { unfold extract_location_from_tweet. rewrite Hu, Hprof.
    assert (Hbt : ∀ g, biography = Some g → truthy g = true).
    { subst biography. destruct (description u) as [d|]; [|done].
      apply extract_location_from_text_truthy. }
    destruct Hg as [-> | ->], Hp as [-> | ->];
      destruct biography as [[|c g]|]; try done;
      by specialize (Hbt _ eq_refl). }
  split; [exact Hex|]. rewrite Hex. split.
  - destruct biography as [g|].
    + split; [intros [= ?]|intros [[= ?] _]].
    + split; [by intros [= ->]|by intros [_ ->]].
  - assert (Hmined : ∀ mined g, extract_location_from_text mined = Some g →
                                set_mem (lower g) IGNORE_LOCATIONS = false).
    { intros mined g. unfold extract_location_from_text.
      destruct (truthy mined); [|by intros [=]].
      apply head_find_locations_not_ignored. }
    intros g [= Hres]. subst biography.
    destruct (description u) as [d|]; cbn [mbind option_bind] in Hres.
    + destruct (extract_location_from_text d) as [g'|] eqn:Hd.
      * injection Hres as <-. by eapply Hmined.
      * by eapply Hmined.
    + by eapply Hmined.
Qed.

End Extractor.

(** ** The gateway and the cache *)

Section GatewayCache.
Context `{rt : PyRuntime} (env : nat → Event).
Import PyStr.

Lemma respect_rate_limit_cache self w :
  location_cache (_respect_rate_limit env self w).1 = location_cache self.
Proof. unfold _respect_rate_limit. by case_match. Qed.

(** What the loop over the tokens does to the cache: nothing when it
    gives up, one entry under the original string when it succeeds. *)
Lemma fallback_cache location_str words :
  ∀ self w res self' w',
    fallback env location_str words self w = (res, self', w') →
    match res with
    | None => location_cache self' = location_cache self
    | Some r =>
        input r = location_str
        ∧ location_cache self' = <[location_str := r]> (location_cache self)
    end.
Proof.
  induction words as [|word rest IH]; intros self w res self' w'; cbn [fallback].
  - by returned.
  - destruct (set_mem (lower word) MAJOR_LOCATIONS); [|apply IH].
    pose proof (respect_rate_limit_cache self w) as Hc.
    destruct (_respect_rate_limit env self w) as [self1 w1]. cbn [fst] in Hc.
    unfold geocode.
    destruct (reply (env (tick w1)) word) as [loc| |e].
    + returned. cbn. by rewrite Hc.
    + intros Hf. apply IH in Hf. rewrite <- Hc. exact Hf.
    + intros Hf. apply IH in Hf. rewrite <- Hc. exact Hf.
Qed.

Lemma focused_retry_cache location_str self w res self' w' :
  focused_retry env location_str self w = (res, self', w') →
  match res with
  | None => location_cache self' = location_cache self
  | Some r =>
      input r = location_str
      ∧ location_cache self' = <[location_str := r]> (location_cache self)
  end.
Proof.
  unfold focused_retry. case_match; [apply fallback_cache|].
  by returned.
Qed.

(** What a call of the gateway does to the cache, by its outcome. *)
Lemma geocode_location_cache self w location_str out self' w' :
  geocode_location env self w location_str = (out, self', w') →
  match location_cache self !! location_str with
  | Some cached => out = Returns (Some cached) ∧ self' = self ∧ w' = w
  | None =>
      match out with
      | Returns (Some r) =>
          input r = location_str
          ∧ location_cache self' = <[location_str := r]> (location_cache self)
      | Returns None | Raises _ => location_cache self' = location_cache self
      end
  end.
Proof.
  unfold geocode_location.
  destruct (location_cache self !! location_str) as [cached|];
    [by returned|].
  destruct (negb (truthy location_str)); [by returned|].
  pose proof (respect_rate_limit_cache self w) as Hc.
  destruct (_respect_rate_limit env self w) as [self1 w1]. cbn [fst] in Hc.
  unfold geocode.
  destruct (reply (env (tick w1)) (search_term location_str)) as [loc| |e].
  - returned. cbn. by rewrite Hc.
  - destruct (focused_retry env location_str self1 _) as [[res self2] w3] eqn:Hf.
    returned. apply focused_retry_cache in Hf. by rewrite <- Hc.
  - destruct (caught e).
    + destruct (focused_retry env location_str self1 _) as [[res self2] w3] eqn:Hf.
      returned. apply focused_retry_cache in Hf. by rewrite <- Hc.
    + by returned.
Qed.

(** A cached string is answered from the cache, and nothing else moves. *)
Lemma geocode_location_hit self w location_str cached :
  location_cache self !! location_str = Some cached →
  geocode_location env self w location_str = (Returns (Some cached), self, w).
Proof. intros Hc. unfold geocode_location. by rewrite Hc. Qed.

(** C2.  If a call of the gateway on a string returns a result, then a
    later call on the same string, on a parser whose cache still holds
    what the first call left under that string, returns the same result
    and leaves the parser and the world as they are: no event of the
    environment is consumed, so no query goes out, the clock is not read,
    the limiter does not sleep and nothing is flushed. *)
Theorem geocode_location_idempotent self w location_str r self' w' :
  geocode_location env self w location_str = (Returns (Some r), self', w') →
  ∀ later w2,
    location_cache later !! location_str = location_cache self' !! location_str →
    geocode_location env later w2 location_str = (Returns (Some r), later, w2).
Proof.
  intros Hfirst later w2 Hsame. apply geocode_location_hit. rewrite Hsame.
  apply geocode_location_cache in Hfirst.
  destruct (location_cache self !! location_str) as [cached|] eqn:Hc.
  - destruct Hfirst as ([= ->] & -> & _). exact Hc.
  - destruct Hfirst as [_ ->]. apply lookup_insert_eq.
Qed.

(** C3.  When geocoding a string that is not yet in the cache succeeds,
    through the primary query or through a token, the cache afterwards is
    the cache before with one entry written under the original string,
    and the result stored there carries that string as its input. *)
Theorem cache_key_fidelity self w location_str r self' w' :
  location_cache self !! location_str = None →
  geocode_location env self w location_str = (Returns (Some r), self', w') →
  input r = location_str
  ∧ location_cache self' = <[location_str := r]> (location_cache self)
  ∧ location_cache self' !! location_str = Some r.
Proof.
  intros Hmiss Hcall. apply geocode_location_cache in Hcall.
  rewrite Hmiss in Hcall. destruct Hcall as [Hin Hc].
  rewrite Hc. by rewrite lookup_insert_eq.
Qed.

(** *** Counting attempts, queries and flushes *)

Lemma attempts_refl self w : attempts 0 self w self w.
Proof. unfold attempts. lia. Qed.

Lemma attempts_trans j k s0 w0 s1 w1 s2 w2 :
  attempts j s0 w0 s1 w1 → attempts k s1 w1 s2 w2 → attempts (j + k) s0 w0 s2 w2.
Proof. unfold attempts. lia. Qed.

Lemma div10_step (n : nat) :
  ((n + 1) / 10
   = if (n + 1) mod 10 =? 0 then n / 10 + 1 else n / 10)%nat.
Proof.
  pose proof (Nat.div_mod_eq n 10) as Hn.
  pose proof (Nat.div_mod_eq (n + 1) 10) as Hs.
  pose proof (Nat.mod_upper_bound n 10) as Hb.
  pose proof (Nat.mod_upper_bound (n + 1) 10) as Hbs.
  destruct (Nat.eqb_spec ((n + 1) mod 10) 0); lia.
Qed.

(** One pass through the limiter followed by one query. *)
Lemma attempt_counted self w term :
  let '(self1, w1) := _respect_rate_limit env self w in
  attempts 1 self w self1 (geocode env self1 w1 term).2.
Proof.
  unfold _respect_rate_limit. cbn [request_count].
  pose proof (div10_step (request_count self)) as Hd.
  destruct (((request_count self + 1) mod 10 =? 0)%nat);
    unfold geocode, attempts;
    cbn [snd request_count tick wire flushed _save_cache length]; lia.
Qed.

Lemma attempts_store k self w self' w' key r :
  attempts k self w self' w' → attempts k self w (store self' key r) w'.
Proof. done. Qed.

Lemma fallback_attempts location_str words :
  ∀ self w res self' w',
    fallback env location_str words self w = (res, self', w') →
    ∃ k, attempts k self w self' w'.
Proof.
  induction words as [|word rest IH]; intros self w res self' w'; cbn [fallback].
  - returned. exists 0%nat. apply attempts_refl.
  - destruct (set_mem (lower word) MAJOR_LOCATIONS); [|apply IH].
    pose proof (attempt_counted self w word) as Ha.
    destruct (_respect_rate_limit env self w) as [self1 w1].
    destruct (geocode env self1 w1 word) as [r w2]. cbn [snd] in Ha.
    destruct r as [loc| |e].
    + returned. exists 1%nat. by apply attempts_store.
    + intros (k & Hk)%IH. exists (1 + k)%nat. by eapply attempts_trans.
    + intros (k & Hk)%IH. exists (1 + k)%nat. by eapply attempts_trans.
Qed.

Lemma focused_retry_attempts location_str self w res self' w' :
  focused_retry env location_str self w = (res, self', w') →
  ∃ k, attempts k self w self' w'.
Proof.
  unfold focused_retry. case_match; [apply fallback_attempts|].
  returned. exists 0%nat. apply attempts_refl.
Qed.

(** A call of the gateway makes some number of attempts, at least one
    when the string is non-empty and not cached. *)
Lemma geocode_location_attempts self w location_str out self' w' :
  geocode_location env self w location_str = (out, self', w') →
  ∃ k, attempts k self w self' w'
       ∧ (location_cache self !! location_str = None →
          truthy location_str = true → (1 ≤ k)%nat).
Proof.
  unfold geocode_location.
  destruct (location_cache self !! location_str) as [cached|].
  { returned. exists 0%nat. split; [apply attempts_refl|done]. }
  destruct (truthy location_str); cbn [negb].
  2: { returned. exists 0%nat. split; [apply attempts_refl|done]. }
  pose proof (attempt_counted self w (search_term location_str)) as Ha.
  destruct (_respect_rate_limit env self w) as [self1 w1].
  destruct (geocode env self1 w1 (search_term location_str)) as [r w2].
  cbn [snd] in Ha.
  assert (Hretry : ∀ res self2 w3,
            focused_retry env location_str self1 w2 = (res, self2, w3) →
            ∃ k, attempts k self w self2 w3 ∧ (1 ≤ k)%nat).
  { intros res self2 w3 (k & Hk)%focused_retry_attempts.
    exists (1 + k)%nat. split; [by eapply attempts_trans|lia]. }
  destruct r as [loc| |e].
  - returned. exists 1%nat. split; [by apply attempts_store|done].
  - destruct (focused_retry env location_str self1 w2) as [[res self2] w3] eqn:Hf.
    returned. destruct (Hretry _ _ _ eq_refl) as (k & ? & ?). by exists k.
  - destruct (caught e).
    + destruct (focused_retry env location_str self1 w2) as [[res self2] w3] eqn:Hf.
      returned. destruct (Hretry _ _ _ eq_refl) as (k & ? & ?). by exists k.
    + returned. exists 1%nat. split; [exact Ha|done].
Qed.

(** C10.  Whenever the gateway returns none, the cache is the same
    mapping after the call as before it and holds nothing under the
    string; so a later call on the same parser with the same (non-empty)
    string does not find a cached answer and sends at least one query to
    the service again. *)
Theorem failure_writes_nothing self w location_str self' w' :
  geocode_location env self w location_str = (Returns None, self', w') →
  location_cache self' = location_cache self
  ∧ location_cache self' !! location_str = None
  ∧ (truthy location_str = true →
     ∀ w2, (length (wire w2)
            < length (wire (geocode_location env self' w2 location_str).2))%nat).
Proof.
  intros Hcall. pose proof Hcall as Hc. apply geocode_location_cache in Hc.
  destruct (location_cache self !! location_str) as [cached|] eqn:Hmiss;
    [by destruct Hc as ([= ?] & _)|].
  split; [exact Hc|]. rewrite Hc. split; [exact Hmiss|].
  intros Ht w2.
  destruct (geocode_location env self' w2 location_str) as [[out2 self2] w3] eqn:Hagain.
  apply geocode_location_attempts in Hagain as (k & (_ & _ & Hw & _) & Hk).
  rewrite Hc in Hk. specialize (Hk Hmiss Ht). cbn [snd]. lia.
Qed.

(** *** Errors of the service *)


Lemma respect_rate_limit_wire self w :
  wire (_respect_rate_limit env self w).2 = wire w.
Proof. unfold _respect_rate_limit. by case_match. Qed.


Lemma geocode_location_returns :
  only_transient env →
  ∀ self w location_str,
    ∃ res, (geocode_location env self w location_str).1.1 = Returns res.
Proof.
  intros Htr self w s. unfold geocode_location.
  destruct (location_cache self !! s) as [cached|]; [by eexists|].
  destruct (negb (truthy s)); [by eexists|].
  destruct (_respect_rate_limit env self w) as [self1 w1]. unfold geocode.
  destruct (reply (env (tick w1)) (search_term s)) as [loc| |e] eqn:Hr.
  - by eexists.
  - destruct (focused_retry env s self1 _) as [[res self2] w3]. by eexists.
  - rewrite (Htr _ _ _ Hr).
    destruct (focused_retry env s self1 _) as [[res self2] w3]. by eexists.
Qed.



(** *** The retry over the tokens *)











End GatewayCache.

(** ** Manual insertion and the cache-entry invariant *)

Section ManualInsert.
Context `{rt : PyRuntime} (env : nat → Event).
Import PyStr.

Lemma length_append (a b : string) :
  String.length (a +:+ b) = (String.length a + String.length b)%nat.
Proof. induction a as [|c a IH]; simpl; [done|by f_equal]. Qed.

(** No variation of a string is the string itself. *)
Lemma variations_fresh location_str : location_str ∉ variations location_str.
Proof.
  unfold variations. intros Hin.
  repeat (apply elem_of_cons in Hin as [Heq|Hin];
          [apply (f_equal String.length) in Heq; rewrite length_append in Heq;
           cbn in Heq; lia|]).
  by apply elem_of_nil in Hin.
Qed.

(** The loop [for var in variations: self.location_cache[var] = result]. *)
Lemma store_all_lookup (result : GeocodeResult) (vars : list string) :
  ∀ self key,
    location_cache (foldl (λ s var, store s var result) self vars) !! key
    = if bool_decide (key ∈ vars) then Some result else location_cache self !! key.
Proof.
  induction vars as [|var vars IH]; intros self key; cbn [foldl]; [done|].
  rewrite IH. cbn [store location_cache].
  destruct (decide (key ∈ vars)) as [Hin|Hnin].
  - rewrite !bool_decide_eq_true_2; [done|by right|done].
  - rewrite (bool_decide_eq_false_2 _ Hnin).
    destruct (decide (key = var)) as [->|Hne].
    + rewrite lookup_insert_eq. rewrite bool_decide_eq_true_2; [done|by left].
    + rewrite lookup_insert_ne by done.
      rewrite bool_decide_eq_false_2; [done|].
      by intros [?|?]%elem_of_cons.
Qed.

(** The cache after a manual insert: one and the same result under the
    string and under each of its five variations, the rest untouched. *)
Lemma add_known_location_lookup self w location_str lat lon address city country key :
  location_cache (add_known_location self w location_str lat lon address city country).1
    !! key
  = if bool_decide (key = location_str ∨ key ∈ variations location_str)
    then Some (known_result location_str lat lon address city country)
    else location_cache self !! key.
Proof.
  unfold add_known_location. cbn [fst]. rewrite store_all_lookup.
  fold (known_result location_str lat lon address city country).
  destruct (decide (key ∈ variations location_str)) as [Hin|Hnin].
  - rewrite !bool_decide_eq_true_2; [done|by right|done].
  - rewrite (bool_decide_eq_false_2 _ Hnin). cbn [store location_cache].
    destruct (decide (key = location_str)) as [->|Hne].
    + rewrite lookup_insert_eq. rewrite bool_decide_eq_true_2; [done|by left].
    + rewrite lookup_insert_ne by done.
      rewrite bool_decide_eq_false_2; [done|]. by intros [?|?].
Qed.

(** A manual insert flushes twice and sends nothing. *)
Lemma add_known_location_world self w location_str lat lon address city country :
  let w' := (add_known_location self w location_str lat lon address city country).2 in
  tick w' = tick w ∧ wire w' = wire w
  ∧ length (flushed w') = (length (flushed w) + 2)%nat.
Proof. cbn. repeat split; lia. Qed.

(** C9.  A manual insert of a string with given coordinates followed by
    a gateway call on that string returns a result whose latitude and
    longitude are the inserted values; the call leaves the parser and the
    world untouched, so no query goes out.  This holds for every string,
    every pair of coordinates and whatever world the call is made in. *)
Theorem manual_insert_round_trip self w location_str lat lon address city country w2 :
  ∃ r,
    geocode_location env
      (add_known_location self w location_str lat lon address city country).1
      w2 location_str
    = (Returns (Some r),
       (add_known_location self w location_str lat lon address city country).1, w2)
    ∧ latitude r = lat ∧ longitude r = lon.
Proof.
  exists (known_result location_str lat lon address city country).
  split; [|done]. apply geocode_location_hit.
  rewrite add_known_location_lookup. rewrite bool_decide_eq_true_2; [done|by left].
Qed.

(** The instance of the claim: London at 51.5074, -0.1278. *)
Example manual_insert_london w2 :
  let self' := (add_known_location init Sample.world0 "London" 51.5074 (-0.1278)
                  None (Some "London") (Some "United Kingdom")).1 in
  ∃ r, geocode_location env self' w2 "London" = (Returns (Some r), self', w2)
       ∧ latitude r = 51.5074%float ∧ longitude r = (-0.1278)%float
       ∧ address r = "London, United Kingdom".
Proof.
  intros self'.
  exists (known_result "London" 51.5074 (-0.1278) None (Some "London")
            (Some "United Kingdom")).
  split; [|done]. apply geocode_location_hit. subst self'.
  rewrite add_known_location_lookup. rewrite bool_decide_eq_true_2; [done|by left].
Qed.

(** C4 (as amended).  Every entry that the gateway writes is stored
    under the input string of its result.  A manual insert stores one
    result under its string and under the five variations of it, so under
    a variation the input of the result is the string without the
    preposition.  Hence in a cache built by these operations every key is
    the input of its result or a variation of that input.  Address,
    latitude and longitude are fields of every result. *)
Theorem cache_entries_keyed self :
  map_Forall keyed (location_cache self) →
  (∀ w location_str out self' w',
     geocode_location env self w location_str = (out, self', w') →
     map_Forall keyed (location_cache self')
     ∧ (location_cache self !! location_str = None →
        ∀ r, out = Returns (Some r) →
             location_cache self' !! location_str = Some r ∧ input r = location_str))
  ∧ (∀ w location_str lat lon address city country,
       let self' :=
         (add_known_location self w location_str lat lon address city country).1 in
       map_Forall keyed (location_cache self')
       ∧ ∀ key, key = location_str ∨ key ∈ variations location_str →
                ∃ r, location_cache self' !! key = Some r
                     ∧ input r = location_str
                     ∧ latitude r = lat ∧ longitude r = lon).
Proof.
  intros Hinv. split.
  - intros w s out self' w' Hcall. apply geocode_location_cache in Hcall.
    destruct (location_cache self !! s) as [cached|] eqn:Hc.
    + destruct Hcall as (_ & -> & _). done.
    + destruct out as [[r|]|e]; [|by rewrite Hcall..].
      destruct Hcall as [Hin ->]. split.
      * apply map_Forall_insert_2; [by left|done].
      * intros _ r' [= <-]. by rewrite lookup_insert_eq.
  - intros w s lat lon address city country self'. split.
    + intros key r. subst self'. rewrite add_known_location_lookup.
      case_bool_decide as Hk; [|apply Hinv].
      intros [= <-]. exact Hk.
    + intros key Hk. eexists. subst self'. rewrite add_known_location_lookup.
      by rewrite bool_decide_eq_true_2.
Qed.

End ManualInsert.

(** ** Batches *)

(** A relation between the state before and after that holds across
    each gateway call, and is reflexive and transitive, holds across the
    orchestrator and across the loop of a batch. *)
Section Lifting.
Context `{rt : PyRuntime} (env : nat → Event).
Variable R : LocationParser → World → LocationParser → World → Prop.
Hypothesis R_refl : ∀ self w, R self w self w.
Hypothesis R_trans :
  ∀ s0 w0 s1 w1 s2 w2, R s0 w0 s1 w1 → R s1 w1 s2 w2 → R s0 w0 s2 w2.
Hypothesis R_gateway :
  ∀ self w location_str out self' w',
    geocode_location env self w location_str = (out, self', w') → R self w self' w'.

Lemma parse_tweet_location_lift self w tweet out self' w' :
  parse_tweet_location env self w tweet = (out, self', w') → R self w self' w'.
Proof.
  unfold parse_tweet_location.
  destruct (extract_location_from_tweet tweet) as [[s|]|e].
  - destruct (PyStr.truthy s).
    + destruct (geocode_location env self w s) as [[[g|e] self1] w1] eqn:Hg;
        returned; by eapply R_gateway.
    + returned. apply R_refl.
  - returned. apply R_refl.
  - returned. apply R_refl.
Qed.

Lemma parse_each_lift tweets :
  ∀ self w out self' w',
    parse_each env self w tweets = (out, self', w') → R self w self' w'.
Proof.
  induction tweets as [|tweet rest IH]; intros self w out self' w'; cbn [parse_each].
  - returned. apply R_refl.
  - destruct (parse_tweet_location env self w tweet) as [[[t|e] self1] w1] eqn:Ht.
    + apply parse_tweet_location_lift in Ht.
      destruct (parse_each env self1 w1 rest) as [[[ts|e] self2] w2] eqn:Hr;
        apply IH in Hr; returned; by eapply R_trans.
    + apply parse_tweet_location_lift in Ht. by returned.
Qed.

End Lifting.

Section Batch.
Context `{rt : PyRuntime} (env : nat → Event).

Lemma parse_each_attempts tweets self w out self' w' :
  parse_each env self w tweets = (out, self', w') →
  ∃ k, attempts k self w self' w'.
Proof.
  apply (parse_each_lift env (λ s0 w0 s1 w1, ∃ k, attempts k s0 w0 s1 w1)).
  - intros s0 w0. exists 0%nat. apply attempts_refl.
  - intros s0 w0 s1 w1 s2 w2 [j Hj] [k Hk]. exists (j + k)%nat.
    by eapply attempts_trans.
  - intros s0 w0 s out0 s1 w1 (k & Hk & _)%geocode_location_attempts. by exists k.
Qed.

Lemma parse_each_length tweets :
  ∀ self w result self' w',
    parse_each env self w tweets = (Returns result, self', w') →
    length result = length tweets.
Proof.
  induction tweets as [|tweet rest IH]; intros self w result self' w'; cbn [parse_each].
  - by returned.
  - destruct (parse_tweet_location env self w tweet) as [[[t|e] self1] w1]; [|done].
    destruct (parse_each env self1 w1 rest) as [[[ts|e] self2] w2] eqn:Hr; [|done].
    returned. cbn. f_equal. by eapply IH.
Qed.

Lemma extract_location_from_tweet_returns tweet :
  well_formed tweet → ∃ c, extract_location_from_tweet tweet = Returns c.
Proof.
  intros Hwf. unfold extract_location_from_tweet.
  destruct (geo_coordinates tweet) as [[|c0 [|c1 more]]|] eqn:Hg;
    [|by destruct (Hwf c0)|by eexists|];
    repeat case_match; by eexists.
Qed.

(** A pass over well-formed posts completes when the service raises only
    errors that the gateway catches. *)
Lemma parse_tweets_location_returns tweets :
  only_transient env → Forall well_formed tweets →
  ∀ self w,
    ∃ result, (parse_tweets_location env self w tweets).1.1 = Returns result.
Proof.
  intros Htr Hwf self w. unfold parse_tweets_location.
  assert (Heach : ∃ result, (parse_each env self w tweets).1.1 = Returns result).
  { revert self w. induction Hwf as [|tweet rest Ht _ IH]; intros self w;
      cbn [parse_each]; [by eexists|].
    assert (Hone : ∃ t, (parse_tweet_location env self w tweet).1.1 = Returns t).
    { unfold parse_tweet_location.
      destruct (extract_location_from_tweet_returns tweet Ht) as [c ->].
      destruct c as [s|]; [|by eexists].
      destruct (PyStr.truthy s); [|by eexists].
      destruct (geocode_location_returns env Htr self w s) as [res Hres].
      destruct (geocode_location env self w s) as [[o self1] w1].
      cbn in Hres. subst o. by eexists. }
    destruct (parse_tweet_location env self w tweet) as [[o self1] w1].
    destruct Hone as [t Hone]. cbn in Hone. subst o.
    destruct (IH self1 w1) as [ts Hts].
    destruct (parse_each env self1 w1 rest) as [[o self2] w2].
    cbn in Hts. subst o. by eexists. }
  destruct (parse_each env self w tweets) as [[o self1] w1].
  destruct Heach as [result Heach]. cbn in Heach. subst o. by eexists.
Qed.

(** C6 (as amended).  The limiter flushes the cache each time the
    parser's running count of outbound attempts, successful or not,
    reaches a multiple of ten, and a pass of the batch orchestrator that
    completes ends with exactly one more flush, of the final cache.  So a
    pass that makes [k] outbound attempts on a parser that had made [c]
    before performs [(c + k) / 10 - c / 10] periodic flushes and one
    terminal flush; every tweet of the list comes back. *)
Theorem batch_flushes self w tweets result self' w' :
  parse_tweets_location env self w tweets = (Returns result, self', w') →
  ∃ k, request_count self' = (request_count self + k)%nat
       ∧ length (wire w') = (length (wire w) + k)%nat
       ∧ length (flushed w')
         = (length (flushed w)
            + ((request_count self + k) / 10 - request_count self / 10) + 1)%nat
       ∧ head (flushed w') = Some (location_cache self')
       ∧ length result = length tweets.
Proof.
  unfold parse_tweets_location.
  destruct (parse_each env self w tweets) as [[[res|e] self1] w1] eqn:He; [|done].
  returned.
  pose proof (parse_each_length _ _ _ _ _ _ He) as Hlen.
  apply parse_each_attempts in He as (k & Hrc & Htick & Hwire & Hfl).
  exists k. cbn [_save_cache flushed wire length head].
  rewrite <- Hrc. repeat split; try done.
  assert (request_count self / 10 ≤ request_count self1 / 10)%nat
    by (apply Nat.Div0.div_le_mono; lia).
  lia.
Qed.

End Batch.

(** ** The rate limiter *)

Lemma spaced_from_app last xs ys :
  spaced_from last (xs ++ ys)
  ↔ spaced_from last xs ∧ spaced_from (latest last xs) ys.
Proof.
  revert last. induction xs as [|x xs IH]; intros last.
  - cbn. tauto.
  - cbn [app spaced_from]. rewrite IH. unfold latest. cbn [foldl]. tauto.
Qed.

Lemma latest_app last xs ys : latest last (xs ++ ys) = latest (latest last xs) ys.
Proof. apply foldl_app. Qed.

Section RateLimit.
Context `{rt : PyRuntime} (env : nat → Event).

Lemma limited_refl self w : limited self w self w.
Proof. exists []. done. Qed.

Lemma limited_trans s0 w0 s1 w1 s2 w2 :
  limited s0 w0 s1 w1 → limited s1 w1 s2 w2 → limited s0 w0 s2 w2.
Proof.
  intros (xs & Hw1 & Hs1 & Hl1) (ys & Hw2 & Hs2 & Hl2). exists (xs ++ ys).
  split; [|split].
  - rewrite Hw2, Hw1, reverse_app. by rewrite <- app_assoc.
  - rewrite fmap_app. apply spaced_from_app. split; [done|]. by rewrite <- Hl1.
  - rewrite fmap_app, latest_app. by rewrite <- Hl1.
Qed.

(** The limiter moves the stamp forward by at least one second. *)
Lemma respect_rate_limit_waits self w :
  clock_sound env →
  (last_request_time self + 1
   <= last_request_time (_respect_rate_limit env self w).1)%Q.
Proof.
  intros Hclock. specialize (Hclock (tick w)).
  assert (Hstamp :
    last_request_time (_respect_rate_limit env self w).1
    = (t_enter (env (tick w))
       + (if Qltb (t_enter (env (tick w)) - last_request_time self) 1
          then 1 - (t_enter (env (tick w)) - last_request_time self) else 0)
       + lag (env (tick w)))%Q).
  { unfold _respect_rate_limit. by case_match. }
  rewrite Hstamp. unfold Qltb.
  destruct (Qle_bool 1 (t_enter (env (tick w)) - last_request_time self)) eqn:E;
    cbn [negb].
  - apply Qle_bool_iff in E. lra.
  - lra.
Qed.

(** One pass through the limiter followed by one query. *)
Lemma attempt_limited self w term :
  clock_sound env →
  let '(self1, w1) := _respect_rate_limit env self w in
  limited self w self1 (geocode env self1 w1 term).2.
Proof.
  intros Hclock. pose proof (respect_rate_limit_waits self w Hclock) as Hwait.
  assert (Hwire : wire (_respect_rate_limit env self w).2 = wire w).
  { unfold _respect_rate_limit. by case_match. }
  destruct (_respect_rate_limit env self w) as [self1 w1]. cbn [fst snd] in *.
  exists [ {| stamp := last_request_time self1; query := term;
              answered := is_found (reply (env (tick w1)) term) |} ].
  unfold geocode. cbn. by rewrite Hwire.
Qed.

Lemma limited_store s0 w0 s1 w1 key r :
  limited s0 w0 s1 w1 → limited s0 w0 (store s1 key r) w1.
Proof. done. Qed.

Lemma fallback_limited location_str words :
  clock_sound env →
  ∀ self w res self' w',
    fallback env location_str words self w = (res, self', w') →
    limited self w self' w'.
Proof.
  intros Hclock.
  induction words as [|word rest IH]; intros self w res self' w'; cbn [fallback].
  - returned. apply limited_refl.
  - destruct (set_mem (PyStr.lower word) MAJOR_LOCATIONS); [|apply IH].
    pose proof (attempt_limited self w word Hclock) as Ha.
    destruct (_respect_rate_limit env self w) as [self1 w1].
    destruct (geocode env self1 w1 word) as [r w2]. cbn [snd] in Ha.
    destruct r as [loc| |e].
    + returned. by apply limited_store.
    + intros Hf%IH. by eapply limited_trans.
    + intros Hf%IH. by eapply limited_trans.
Qed.

Lemma geocode_location_limited self w location_str out self' w' :
  clock_sound env →
  geocode_location env self w location_str = (out, self', w') →
  limited self w self' w'.
Proof.
  intros Hclock. unfold geocode_location.
  destruct (location_cache self !! location_str) as [cached|].
  { returned. apply limited_refl. }
  destruct (negb (PyStr.truthy location_str)).
  { returned. apply limited_refl. }
  pose proof (attempt_limited self w (search_term location_str) Hclock) as Ha.
  destruct (_respect_rate_limit env self w) as [self1 w1].
  destruct (geocode env self1 w1 (search_term location_str)) as [r w2].
  cbn [snd] in Ha.
  assert (Hretry : ∀ res self2 w3,
            focused_retry env location_str self1 w2 = (res, self2, w3) →
            limited self w self2 w3).
  { intros res self2 w3. unfold focused_retry. case_match.
    - intros Hf%(fallback_limited _ _ Hclock). by eapply limited_trans.
    - by returned. }
  destruct r as [loc| |e].
  - returned. by apply limited_store.
  - destruct (focused_retry env location_str self1 w2) as [[res self2] w3] eqn:Hf.
    returned. by eapply Hretry.
  - destruct (caught e).
    + destruct (focused_retry env location_str self1 w2) as [[res self2] w3] eqn:Hf.
      returned. by eapply Hretry.
    + by returned.
Qed.

(** C5 (as amended).  On a clock that does not run backwards and with
    a sleep that does not return early, the queries that one parser sends
    during a gateway call, through the primary attempt or the fallback
    attempts, carry limiter stamps at least one second apart, the first of
    them at least one second after the stamp the parser held before the
    call; and the parser leaves the call holding the stamp of the last
    query.  The stamp is an attribute of the parser object: the guarantee
    chains over the successive calls of one parser, and says nothing about
    queries of different parser objects. *)
Theorem queries_spaced_per_parser self w location_str out self' w' :
  clock_sound env →
  geocode_location env self w location_str = (out, self', w') →
  ∃ sent : list Outbound,
    wire w' = reverse sent ++ wire w
    ∧ spaced_from (last_request_time self) (stamp <$> sent)
    ∧ last_request_time self' = latest (last_request_time self) (stamp <$> sent).
Proof. apply geocode_location_limited. Qed.

(** The same over a whole pass of the batch loop. *)
Lemma batch_queries_spaced tweets self w out self' w' :
  clock_sound env →
  parse_each env self w tweets = (out, self', w') →
  limited self w self' w'.
Proof.
  intros Hclock. apply (parse_each_lift env limited).
  - apply limited_refl.
  - apply limited_trans.
  - intros s0 w0 s out0 s1 w1 Hcall.
    by eapply geocode_location_limited.
Qed.

End RateLimit.

(** ** The properties on concrete runs *)

Module Runs.
Import Sample.

(** The profile says "Twitter": the candidate comes from the biography. *)
Lemma ignored_profile_location_witness :
  extract_location_from_tweet (rt := Sample.runtime)
    {| text := Some "Amazing match in Paris"; geo := None; place := None;
       user := Some {| location := Some " Twitter ";
                       description := Some "Based in London" |};
       tweet_location := None |}
  = Returns (Some "London").
Proof.
  pose (u := {| location := Some " Twitter "; description := Some "Based in London" |}).
  pose (t := {| text := Some "Amazing match in Paris"; geo := None; place := None;
                user := Some u; tweet_location := None |}).
  destruct (ignored_profile_location_falls_through (rt := Sample.runtime)
              t u " Twitter " eq_refl eq_refl eq_refl) as [_ Hfall].
  destruct (Hfall (or_introl eq_refl) (or_introl eq_refl)) as [Heq _].
  exact Heq.
Defined.

(** "London calling" on a fresh parser: the substituted primary term
    times out, the token is found, the entry sits under the whole string. *)
Example calling_run :
  calling.1.1 = Returns (Some (make_result "London calling" london))
  ∧ query <$> wire calling.2 = ["London"; "london"]
  ∧ dom (location_cache calling.1.2) = {["London calling"]}.
Proof. vm_compute. done. Qed.

(** Asking again answers from the cache and moves nothing. *)
Lemma geocode_location_idempotent_witness :
  geocode_location (rt := runtime) flaky calling.1.2 calling.2 "London calling"
  = (Returns (Some (make_result "London calling" london)), calling.1.2, calling.2).
Proof.
  apply (geocode_location_idempotent (rt := runtime) flaky init world0
           "London calling" (make_result "London calling" london)
           calling.1.2 calling.2).
  - vm_compute. reflexivity.
  - reflexivity.
Defined.

(** The entry of a success through a fallback token. *)
Lemma cache_key_fidelity_witness :
  input (make_result "London calling" london) = "London calling"
  ∧ location_cache calling.1.2
    = <["London calling" := make_result "London calling" london]> (location_cache init)
  ∧ location_cache calling.1.2 !! "London calling"
    = Some (make_result "London calling" london).
Proof.
  apply (cache_key_fidelity (rt := runtime) flaky init world0 "London calling"
           (make_result "London calling" london) calling.1.2 calling.2).
  - reflexivity.
  - vm_compute. reflexivity.
Defined.

(** The primary query with a substituted term: the entry is written
    under the string as given. *)
Example new_york_baby_run :
  let run := geocode_location (rt := runtime) steady init world0 "New York baby" in
  query <$> wire run.2 = ["new york"]
  ∧ dom (location_cache run.1.2) = {["New York baby"]}
  ∧ input <$> location_cache run.1.2 !! "New York baby" = Some "New York baby".
Proof. vm_compute. done. Qed.

(** C4 as stated fails: under the key "in London" the input field of the
    stored result is "London", not the key. *)
Lemma variation_entry_input_is_not_key :
  input <$> location_cache london_inserted !! "in London" = Some "London"
  ∧ "London" ≠ "in London".
Proof. split; [vm_compute; reflexivity|discriminate]. Qed.

(** The invariant after London is inserted into the empty cache. *)
Lemma cache_entries_keyed_witness :
  map_Forall keyed (location_cache london_inserted).
Proof.
  exact (proj1 (proj2 (cache_entries_keyed (rt := runtime) steady init
                         (map_Forall_empty keyed))
                 world0 "London" 51.5074%float (-0.1278)%float
                 None (Some "London") (Some "United Kingdom"))).
Defined.

(** C5 as stated fails: the two queries leave 0.2 seconds apart, neither
    parser sleeps. *)
Lemma two_parsers_within_a_second :
  (λ o, Qred (stamp o)) <$> wire after_b.2 = [5001 # 5; 1000 # 1]
  ∧ query <$> wire after_b.2 = ["Rome"; "Paris"]
  ∧ ¬ ((1000 # 1) + 1 <= (5001 # 5))%Q.
Proof.
  split; [vm_compute; reflexivity|]. split; [vm_compute; reflexivity|].
  intros Hle. vm_compute in Hle. by apply Hle.
Qed.

(** The two queries of "London calling", sent by one parser. *)
Lemma queries_spaced_per_parser_witness :
  ∃ sent : list Outbound,
    wire calling.2 = reverse sent ++ wire world0
    ∧ spaced_from (last_request_time init) (stamp <$> sent)
    ∧ last_request_time calling.1.2
      = latest (last_request_time init) (stamp <$> sent).
Proof.
  apply (queries_spaced_per_parser (rt := runtime) flaky init world0
           "London calling" calling.1.1 calling.1.2 calling.2).
  - intros n. cbn. done.
  - vm_compute. reflexivity.
Defined.

(** The second query of that call waited out the second. *)
Example calling_stamps :
  (λ o, Qred (stamp o)) <$> wire calling.2 = [1001 # 1; 1000 # 1].
Proof. vm_compute. reflexivity. Qed.

(** C6 as stated fails: ten queries, none of them successful, and yet one
    periodic flush besides the terminal one. *)
Lemma ten_failed_queries_flush_once :
  length (wire atlantis_pass.2) = 10%nat
  ∧ successful_queries atlantis_pass.2 = 0%nat
  ∧ length (flushed atlantis_pass.2) = 2%nat
  ∧ length (flushed atlantis_pass.2)
    ≠ (1 + successful_queries atlantis_pass.2 / 10)%nat.
Proof. vm_compute. repeat split; discriminate. Qed.

(** The same pass: ten attempts, one periodic flush, one terminal flush. *)
Lemma batch_flushes_witness :
  ∃ k, request_count atlantis_pass.1.2 = (request_count init + k)%nat
       ∧ length (wire atlantis_pass.2) = (length (wire world0) + k)%nat
       ∧ length (flushed atlantis_pass.2)
         = (length (flushed world0)
            + ((request_count init + k) / 10 - request_count init / 10) + 1)%nat
       ∧ head (flushed atlantis_pass.2) = Some (location_cache atlantis_pass.1.2)
       ∧ length (replicate 10 (with_location (tweet_at "Atlantis")
                    {| raw_location := Some "Atlantis"; geocoded := None |}))
         = length (replicate 10 (tweet_at "Atlantis")).
Proof.
  apply (batch_flushes (rt := runtime) down init world0
           (replicate 10 (tweet_at "Atlantis"))
           (replicate 10 (with_location (tweet_at "Atlantis")
                            {| raw_location := Some "Atlantis"; geocoded := None |}))
           atlantis_pass.1.2 atlantis_pass.2).
  vm_compute. reflexivity.
Defined.


(** "Atlantis" is not found, and is asked for again the next time. *)
Lemma failure_writes_nothing_witness :
  location_cache atlantis.1.2 = location_cache init
  ∧ location_cache atlantis.1.2 !! "Atlantis" = None
  ∧ (PyStr.truthy "Atlantis" = true →
     ∀ w2, (length (wire w2)
            < length (wire (geocode_location (rt := runtime) steady
                              atlantis.1.2 w2 "Atlantis").2))%nat).
Proof.
  apply (failure_writes_nothing (rt := runtime) steady init world0 "Atlantis"
           atlantis.1.2 atlantis.2).
  vm_compute. reflexivity.
Defined.

(** The scenario of the module's example: the profile location beats the
    mention in the body. *)
Example profile_location_beats_body :
  let tweet :=
    {| text := Some "Amazing match today in London! The team played brilliantly! #GoTeam";
       geo := None; place := None;
       user := Some {| location := Some "Manchester, UK"; description := None |};
       tweet_location := None |} in
  extract_location_from_tweet (rt := runtime) tweet = Returns (Some "Manchester, UK")
  ∧ (tweet_location
       <$> match (parse_tweet_location (rt := runtime) steady init world0 tweet).1.1 with
           | Returns t => Some t
           | Raises _ => None
           end)
    = Some (Some {| raw_location := Some "Manchester, UK"; geocoded := None |}).
Proof. vm_compute. done. Qed.

(** Coordinates beat everything else on the post. *)
Example coordinates_beat_body :
  extract_location_from_tweet (rt := runtime)
    {| text := Some "Amazing match in London!";
       geo := Some {| coordinates := Some [40.7128; -74.006]%float |};
       place := Some {| full_name := Some "Paris, France" |};
       user := Some {| location := Some "Manchester, UK"; description := None |};
       tweet_location := None |}
  = Returns (Some "40.7128,-74.006").
Proof. vm_compute. reflexivity. Qed.

End Runs.
(** * Further properties of the module and of its callers *)

(** ** Text mining *)

Section TextMiningMore.
Import PyStr Re.

Lemma strip_prefix_substring p :
  ∀ s r, strip_prefix p s = Some r → String.substring 0 (String.length p) s = p.
Proof.
  induction p as [|a p IH]; intros s r; destruct s as [|b s]; cbn; try done.
  destruct (Ascii.eqb_spec a b) as [->|]; [|done].
  intros Hr. by rewrite (IH _ _ Hr).
Qed.

Lemma lower_substring n : ∀ s,
  lower (String.substring 0 n s) = String.substring 0 n (lower s).
Proof.
  induction n as [|n IH]; intros [|c s]; cbn; try done. by rewrite IH.
Qed.

(** A gazetteer entry that occurs in the lower-cased text is found by the
    case-insensitive search. *)
Lemma search_ignorecase_complete location text :
  contains location (lower text) = true →
  is_Some (search_ignorecase location text).
Proof.
  induction text as [|c rest IH]; cbn [lower contains search_ignorecase];
    rewrite lower_substring; cbn [lower].
  - destruct (strip_prefix location "") as [r|] eqn:Hp; [|done]. intros _.
    apply strip_prefix_substring in Hp. rewrite Hp, String.eqb_refl. by eexists.
  - destruct (strip_prefix location (String (lower_char c) (lower rest)))
      as [r|] eqn:Hp.
    + intros _. apply strip_prefix_substring in Hp.
      rewrite Hp, String.eqb_refl. by eexists.
    + intros Hc. case_match; [by eexists|]. by apply IH.
Qed.

Lemma gazetteer_never_ignored location :
  location ∈ MAJOR_LOCATIONS → set_mem location IGNORE_LOCATIONS = false.
Proof.
  intros Hin. apply list_elem_of_In in Hin.
  assert (Hall : forallb (λ l, negb (set_mem l IGNORE_LOCATIONS)) MAJOR_LOCATIONS
                 = true) by (vm_compute; reflexivity).
  rewrite forallb_forall in Hall. apply negb_true_iff. by apply Hall.
Qed.

Lemma contains_nil_false location :
  truthy location = true → contains location "" = false.
Proof. by destruct location. Qed.

Context `{rt : PyRuntime}.

Lemma find_locations_NoDup text : NoDup (find_locations_in_text text).
Proof.
  unfold find_locations_in_text. destruct (truthy text); [|constructor].
  apply set_iter_NoDup.
Qed.

(** X1.  What [find_locations_in_text] returns, on every runtime: a list
    without duplicates, of non-empty strings, none of them an ignore-listed
    term in any letter case; and, when the text is ASCII, each of them
    either the group of a match of one of the preposition patterns or, in
    lower case, a gazetteer entry. *)
Theorem find_locations_sound text :
  NoDup (find_locations_in_text text)
  ∧ ∀ g, g ∈ find_locations_in_text text →
         truthy g = true
         ∧ set_mem (lower g) IGNORE_LOCATIONS = false
         ∧ (isascii text = true →
            (∃ prep, prep ∈ LOCATION_PATTERNS ∧ g ∈ findall_pattern prep 0 text)
            ∨ set_mem (lower g) MAJOR_LOCATIONS = true).
Proof.
  split; [apply find_locations_NoDup|].
  intros g Hg. split; [by eapply find_locations_truthy|].
  {
    apply elem_of_find_locations in Hg as [_ Hg].
    split; [by eapply candidates_not_ignored|]. intros _.
    unfold candidates, pattern_matches, known_words in Hg.
    rewrite !elem_of_app, list_elem_of_omap in Hg.
    destruct Hg as [Hp|[Hw|(location & Hin & Hph)]].
    + left. apply list_elem_of_In, in_flat_map in Hp as (prep & Hprep & Hp).
      apply filter_In in Hp as [Hp _]. exists prep.
      split; by apply list_elem_of_In.
    + right. apply list_elem_of_In, filter_In in Hw as [_ Hw].
      by apply andb_true_iff in Hw as [Hw _].
    + right. unfold phrase_of in Hph. case_match; [|done].
      apply search_ignorecase_lower in Hph. rewrite Hph.
      unfold set_mem. apply existsb_exists. exists location.
      split; [by apply list_elem_of_In|apply String.eqb_refl]. }
Qed.

(** X3.  A text in which a gazetteer entry occurs, in whatever letter
    case, always yields a candidate. *)
Theorem gazetteer_mention_found location text :
  location ∈ MAJOR_LOCATIONS →
  contains location (lower text) = true →
  is_Some (extract_location_from_text text).
Proof.
  intros Hin Hc.
  assert (Ht : truthy text = true).
  { destruct text; [|done]. cbn [lower] in Hc.
    by rewrite (contains_nil_false _ (MAJOR_LOCATIONS_truthy _ Hin)) in Hc. }
  destruct (search_ignorecase_complete _ _ Hc) as [g Hg].
  assert (Hcand : g ∈ find_locations_in_text text).
  { apply elem_of_find_locations. split; [done|].
    unfold candidates. rewrite !elem_of_app, list_elem_of_omap.
    right; right. exists location. split; [done|].
    unfold phrase_of. by rewrite Hc, (gazetteer_never_ignored _ Hin). }
  unfold extract_location_from_text. rewrite Ht.
  destruct (find_locations_in_text text); [by apply elem_of_nil in Hcand|by eexists].
Qed.

End TextMiningMore.

(** X2.  The set of candidates does not depend on the order in which the
    runtime iterates sets: on two runtimes [find_locations_in_text] returns
    permutations of one list, and [extract_location_from_text] finds a
    candidate on one exactly when it does on the other. *)
Theorem find_locations_runtime_independent (rt1 rt2 : PyRuntime) text :
  find_locations_in_text (rt := rt1) text ≡ₚ find_locations_in_text (rt := rt2) text
  ∧ (extract_location_from_text (rt := rt1) text = None
     ↔ extract_location_from_text (rt := rt2) text = None).
Proof.
  split.
  - apply NoDup_Permutation.
    + apply (find_locations_NoDup (rt := rt1)).
    + apply (find_locations_NoDup (rt := rt2)).
    + intros g. by rewrite !elem_of_find_locations.
  - unfold extract_location_from_text. destruct (PyStr.truthy text) eqn:Ht; [|done].
    rewrite !head_None, !find_locations_nil. done.
Qed.

(** ** The extractor *)

Section ExtractorMore.
Context `{rt : PyRuntime}.
Import PyStr.

Lemma rstrip_rstrip s : rstrip (rstrip s) = rstrip s.
Proof.
  induction s as [|c s IH]; [done|]. cbn [rstrip].
  destruct (rstrip s) as [|d r] eqn:Hr.
  - destruct (is_space c) eqn:Hc; [done|]. cbn. by rewrite Hc.
  - change (rstrip (String c (String d r)))
      with (match rstrip (String d r) with
            | EmptyString => if is_space c then EmptyString else String c EmptyString
            | String d' r' => String c (String d' r')
            end).
    by rewrite IH.
Qed.

Lemma lstrip_head s :
  match lstrip s with
  | EmptyString => True
  | String c _ => is_space c = false
  end.
Proof.
  induction s as [|c s IH]; [done|]. cbn [lstrip].
  by destruct (is_space c) eqn:Hc.
Qed.

Lemma lstrip_rstrip_fixed s :
  match s with EmptyString => True | String c _ => is_space c = false end →
  lstrip (rstrip s) = rstrip s.
Proof.
  destruct s as [|c s]; [done|]. intros Hc. cbn [rstrip].
  destruct (rstrip s); [|cbn; by rewrite Hc].
  rewrite Hc. cbn. by rewrite Hc.
Qed.

Lemma strip_strip s : strip (strip s) = strip s.
Proof.
  unfold strip. rewrite (lstrip_rstrip_fixed (lstrip s)) by apply lstrip_head.
  apply rstrip_rstrip.
Qed.

(** X6.  A profile location that passes the test is returned trimmed:
    the candidate is the field without its leading and trailing
    whitespace, and trimming it again changes nothing. *)
Theorem profile_location_trimmed (u : User) (l : string) :
  location u = Some l →
  truthy l = true →
  set_mem (lower (strip l)) IGNORE_LOCATIONS = false →
  ∃ g, extract_location_from_user_profile (Some u) = Some g
       ∧ g = strip l ∧ strip g = g ∧ lstrip g = g ∧ rstrip g = g.
Proof.
  intros Hl Ht Hig. exists (strip l).
  unfold extract_location_from_user_profile. rewrite Hl, Ht, Hig.
  repeat split; [apply strip_strip| |apply rstrip_rstrip].
  unfold strip. apply lstrip_rstrip_fixed, lstrip_head.
Qed.

(** X4.  A candidate that the extractor returns is never the empty
    string, whichever signal it comes from. *)
Theorem extracted_candidate_not_empty (t : Tweet) (g : string) :
  extract_location_from_tweet t = Returns (Some g) → g ≠ "".
Proof.
  unfold extract_location_from_tweet.
  destruct (geo_coordinates t) as [[|c0 [|c1 more]]|];
    [|done|intros [= <-]; by destruct (float_str c0)|].
  all: destruct (place_full_name t) as [[|c n]|]; [|by intros [= <-]|].
  all: destruct (extract_location_from_user_profile (user t)) as [[|c l]|];
         try (by intros [= <-]).
  all: intros [= Hg]; apply extract_location_from_text_truthy in Hg;
         by destruct g.
Qed.

(** X5.  The extractor raises in one case only: the post carries a
    coordinate list with exactly one element, and then it raises
    [IndexError], whatever else the post holds. *)
Theorem extract_raises_iff (t : Tweet) (e : exn) :
  extract_location_from_tweet t = Raises e
  ↔ e = IndexError ∧ ∃ c0, geo_coordinates t = Some [c0].
Proof.
  unfold extract_location_from_tweet.
  destruct (geo_coordinates t) as [[|c0 [|c1 more]]|].
  2: { split; [intros [= <-]; eauto|by intros [-> _]]. }
  2: { split; [done|by intros [_ [? [=]]]]. }
  all: split; [|by intros [_ [? [=]]]].
  all: destruct (place_full_name t) as [[|c n]|]; [|done|].
  all: by destruct (extract_location_from_user_profile (user t)) as [[|c l]|].
Qed.

End ExtractorMore.

(** ** The gateway *)

Section GatewayMore.
Context `{rt : PyRuntime} (env : nat → Event).
Import PyStr.

(** X7.  The term of the primary query is the string as given when its
    lower-case form is a gazetteer entry or contains none; otherwise it
    is a gazetteer entry that the lower-cased string contains.  It is
    never anything else. *)
Theorem search_term_sound (location_str : string) :
  (set_mem (lower location_str) MAJOR_LOCATIONS = true →
   search_term location_str = location_str)
  ∧ ((∀ loc, loc ∈ MAJOR_LOCATIONS → contains loc (lower location_str) = false) →
     search_term location_str = location_str)
  ∧ (set_mem (lower location_str) MAJOR_LOCATIONS = false →
     ∀ loc, loc ∈ MAJOR_LOCATIONS → contains loc (lower location_str) = true →
            search_term location_str ∈ MAJOR_LOCATIONS
            ∧ contains (search_term location_str) (lower location_str) = true)
  ∧ (search_term location_str = location_str
     ∨ (search_term location_str ∈ MAJOR_LOCATIONS
        ∧ contains (search_term location_str) (lower location_str) = true)).
Proof.
  unfold search_term.
  destruct (set_mem (lower location_str) MAJOR_LOCATIONS) eqn:Hm.
  { split; [done|]. split; [done|]. split; [done|]. by left. }
  destruct (List.find _ (set_iter MAJOR_LOCATIONS)) as [found|] eqn:Hf.
  - apply find_some in Hf as [Hin Hc].
    apply list_elem_of_In in Hin. rewrite set_iter_elem in Hin.
    rewrite (MAJOR_LOCATIONS_truthy _ Hin).
    split; [done|]. split; [|split].
    + intros Hnone. by rewrite (Hnone _ Hin) in Hc.
    + done.
    + by right.
  - split; [done|]. split; [done|]. split; [|by left].
    intros _ loc Hin Hc. exfalso.
    rewrite <- (set_iter_elem MAJOR_LOCATIONS) in Hin. apply list_elem_of_In in Hin.
    pose proof (find_none _ _ Hf _ Hin) as Hn. cbn in Hn. congruence.
Qed.

Lemma first_success_later sent o :
  answered o = false → ∀ found,
  first_success sent found → first_success (sent ++ [o]) found.
Proof.
  intros Ho [|]; cbn.
  - intros (o' & older & -> & Ha & Hold). exists o', (older ++ [o]).
    repeat split; [done|]. apply Forall_app. split; [done|]. by constructor.
  - intros Hall. apply Forall_app. split; [done|]. by constructor.
Qed.

(** The queries of the loop over the tokens. *)
Lemma fallback_trace location_str words :
  ∀ self w res self' w',
    fallback env location_str words self w = (res, self', w') →
    ∃ sent,
      wire w' = sent ++ wire w
      ∧ Forall (λ o, query o ∈ words ∧ gazetteer_token (query o) = true) sent
      ∧ (length sent ≤ length (List.filter gazetteer_token words))%nat
      ∧ first_success sent (bool_decide (is_Some res)).
Proof.
  induction words as [|word rest IH]; intros self w res self' w'; cbn [fallback].
  { returned. exists []. split_and!; [done|constructor|done|constructor]. }
  cbn [List.filter]. fold (gazetteer_token word).
  assert (Hrest : ∀ sent : list Outbound,
    Forall (λ o, query o ∈ rest ∧ gazetteer_token (query o) = true) sent →
    Forall (λ o, query o ∈ word :: rest ∧ gazetteer_token (query o) = true) sent).
  { intros sent Hs. eapply Forall_impl; [exact Hs|].
    intros o [Ho ?]. split; [by right|done]. }
  destruct (gazetteer_token word) eqn:Hg.
  2: { intros (sent & Hw & Hq & Hlen & Hfs)%IH. exists sent.
       split_and!; [done|by apply Hrest|done|done]. }
  pose proof (respect_rate_limit_wire env self w) as Hwire.
  destruct (_respect_rate_limit env self w) as [self1 w1]. cbn [snd] in Hwire.
  unfold geocode.
  assert (Hgo : ∀ o self2,
    query o = word → answered o = false →
    fallback env location_str rest self2
      {| tick := S (tick w1); wire := o :: wire w1; flushed := flushed w1 |}
    = (res, self', w') →
    ∃ sent,
      wire w' = sent ++ wire w
      ∧ Forall (λ o, query o ∈ word :: rest ∧ gazetteer_token (query o) = true) sent
      ∧ (length sent ≤ length (word :: List.filter gazetteer_token rest))%nat
      ∧ first_success sent (bool_decide (is_Some res))).
  { intros o self2 Hq Ha (sent & Hw & Hall & Hlen & Hfs)%IH. cbn [wire] in Hw.
    exists (sent ++ [o]). split_and!.
    - by rewrite Hw, Hwire, <- app_assoc.
    - apply Forall_app. split; [by apply Hrest|].
      constructor; [|constructor]. rewrite Hq. split; [by left|done].
    - rewrite length_app. cbn. lia.
    - by apply first_success_later. }
  destruct (reply (env (tick w1)) word) as [loc| |e] eqn:Hr.
  - returned. eexists [_]. split_and!.
    + cbn. by rewrite Hwire.
    + constructor; [|constructor]. split; [by left|done].
    + cbn. lia.
    + cbn. eexists _, []. split_and!; [done|done|constructor].
  - by apply Hgo.
  - by apply Hgo.
Qed.

Lemma focused_retry_trace location_str self w res self' w' :
  focused_retry env location_str self w = (res, self', w') →
  ∃ sent,
    wire w' = sent ++ wire w
    ∧ Forall (allowed_query location_str) sent
    ∧ (length sent ≤ length (List.filter gazetteer_token (split location_str)))%nat
    ∧ ((length (split location_str) ≤ 1)%nat → sent = [])
    ∧ first_success sent (bool_decide (is_Some res)).
Proof.
  unfold focused_retry. destruct (1 <? length (split location_str))%nat eqn:Hl.
  - intros (sent & Hw & Hq & Hlen & Hfs)%fallback_trace. exists sent.
    apply Nat.ltb_lt in Hl. split_and!; [done| |done|lia|done].
    eapply Forall_impl; [exact Hq|]. intros o Ho. by right.
  - returned. exists []. split_and!; [done|constructor|cbn; lia|done|constructor].
Qed.

(** The queries of a gateway call that is not answered from the cache. *)
Lemma geocode_location_trace self w location_str out self' w' :
  location_cache self !! location_str = None →
  truthy location_str = true →
  geocode_location env self w location_str = (out, self', w') →
  ∃ sent first,
    wire w' = sent ++ first :: wire w
    ∧ query first = search_term location_str
    ∧ Forall (allowed_query location_str) (sent ++ [first])
    ∧ (length sent ≤ length (List.filter gazetteer_token (split location_str)))%nat
    ∧ ((length (split location_str) ≤ 1)%nat → sent = [])
    ∧ match out with
      | Returns res => first_success (sent ++ [first]) (bool_decide (is_Some res))
      | Raises e => sent = [] ∧ caught e = false
      end.
Proof.
  intros Hmiss Ht. unfold geocode_location. rewrite Hmiss, Ht. cbn [negb].
  pose proof (respect_rate_limit_wire env self w) as Hwire.
  destruct (_respect_rate_limit env self w) as [self1 w1]. cbn [snd] in Hwire.
  unfold geocode.
  assert (Hretry : ∀ first res self2 w3,
    answered first = false → query first = search_term location_str →
    focused_retry env location_str self1
      {| tick := S (tick w1); wire := first :: wire w1; flushed := flushed w1 |}
    = (res, self2, w3) →
    ∃ sent first',
      wire w3 = sent ++ first' :: wire w
      ∧ query first' = search_term location_str
      ∧ Forall (allowed_query location_str) (sent ++ [first'])
      ∧ (length sent ≤ length (List.filter gazetteer_token (split location_str)))%nat
      ∧ ((length (split location_str) ≤ 1)%nat → sent = [])
      ∧ first_success (sent ++ [first']) (bool_decide (is_Some res))).
  { intros first res self2 w3 Ha Hq
      (sent & Hw & Hall & Hlen & Hone & Hfs)%focused_retry_trace.
    cbn [wire] in Hw. exists sent, first. split_and!; try done.
    - by rewrite Hw, Hwire.
    - apply Forall_app. split; [done|]. constructor; [by left|constructor].
    - by apply first_success_later. }
  assert (Hone : ∀ first : Outbound,
    query first = search_term location_str →
    Forall (allowed_query location_str) ([] ++ [first])).
  { intros first Hq. constructor; [by left|constructor]. }
  destruct (reply (env (tick w1)) (search_term location_str)) as [loc| |e] eqn:Hr.
  - returned. eexists [], _. split_and!.
    + cbn. by rewrite Hwire.
    + done.
    + by apply Hone.
    + cbn. lia.
    + done.
    + cbn. eexists _, []. split_and!; [done|done|constructor].
  - destruct (focused_retry env location_str self1 _) as [[res self2] w3] eqn:Hf.
    returned. eapply Hretry; [| |exact Hf]; done.
  - destruct (caught e) eqn:Hc.
    + destruct (focused_retry env location_str self1 _) as [[res self2] w3] eqn:Hf.
      returned. eapply Hretry; [| |exact Hf]; done.
    + returned. eexists [], _. split_and!.
      * cbn. by rewrite Hwire.
      * done.
      * by apply Hone.
      * cbn. lia.
      * done.
      * done.
      * done.
Qed.

(** X8.  A gateway call that misses the cache sends the primary query
    first and then at most one query per gazetteer token of the string,
    so at most one more than the string has such tokens, and exactly one
    when the string is a single token; every query it sends is the
    primary term or a gazetteer token of the string. *)
Theorem gateway_queries_bounded self w location_str out self' w' :
  location_cache self !! location_str = None →
  truthy location_str = true →
  geocode_location env self w location_str = (out, self', w') →
  ∃ sent first,
    wire w' = sent ++ first :: wire w
    ∧ query first = search_term location_str
    ∧ Forall (allowed_query location_str) (sent ++ [first])
    ∧ (length (sent ++ [first])
       ≤ 1 + length (List.filter gazetteer_token (split location_str)))%nat
    ∧ ((length (split location_str) ≤ 1)%nat → sent = []).
Proof.
  intros Hmiss Ht Hcall.
  destruct (geocode_location_trace _ _ _ _ _ _ Hmiss Ht Hcall)
    as (sent & first & Hw & Hq & Hall & Hlen & Hone & _).
  exists sent, first. split_and!; try done. rewrite length_app. cbn. lia.
Qed.

(** X9.  The gateway stops at the first success: when a call that misses
    the cache returns a result, the last query it sent is the only one
    the service answered with a match; when it returns none, no query was
    answered; when it raises, the primary query is the only one sent. *)
Theorem gateway_stops_at_first_success self w location_str out self' w' :
  location_cache self !! location_str = None →
  truthy location_str = true →
  geocode_location env self w location_str = (out, self', w') →
  ∃ sent, wire w' = sent ++ wire w
    ∧ match out with
      | Returns (Some _) =>
          ∃ o older, sent = o :: older ∧ answered o = true ∧ Forall unanswered older
      | Returns None => Forall unanswered sent
      | Raises _ => length sent = 1%nat
      end.
Proof.
  intros Hmiss Ht Hcall.
  destruct (geocode_location_trace _ _ _ _ _ _ Hmiss Ht Hcall)
    as (sent & first & Hw & _ & _ & _ & _ & Hout).
  exists (sent ++ [first]). rewrite <- app_assoc. split; [done|].
  destruct out as [[r|]|e]; [exact Hout|exact Hout|].
  by destruct Hout as [-> _].
Qed.

(** X10.  The gateway contacts the service exactly when the string is
    neither cached nor empty: otherwise it sends nothing, reads no clock
    and flushes nothing. *)
Theorem gateway_contacts_service_iff self w location_str out self' w' :
  geocode_location env self w location_str = (out, self', w') →
  (wire w' = wire w
   ↔ is_Some (location_cache self !! location_str) ∨ location_str = "")
  ∧ (is_Some (location_cache self !! location_str) ∨ location_str = "" →
     self' = self ∧ w' = w).
Proof.
  intros Hcall.
  assert (Hstill : is_Some (location_cache self !! location_str) ∨ location_str = ""
                   → self' = self ∧ w' = w).
  { unfold geocode_location in Hcall. intros [[cached Hc]| ->].
    - rewrite Hc in Hcall. by injection Hcall as _ <- <-.
    - destruct (location_cache self !! ""); by injection Hcall as _ <- <-. }
  split; [|exact Hstill]. split; [|by intros [_ ->]%Hstill].
  intros Hw. destruct (location_cache self !! location_str) as [cached|] eqn:Hc;
    [left; by eexists|].
  destruct location_str as [|c s]; [by right|]. exfalso.
  apply geocode_location_attempts in Hcall as (k & (_ & _ & Hlen & _) & Hk).
  specialize (Hk Hc eq_refl). rewrite Hw in Hlen. lia.
Qed.

Lemma grown_refl m : grown m m.
Proof. split; [done|]. intros key r Hr. by left. Qed.

Lemma grown_trans m1 m2 m3 : grown m1 m2 → grown m2 m3 → grown m1 m3.
Proof.
  intros [Hs1 Hn1] [Hs2 Hn2]. split; [by etrans|].
  intros key r Hr. destruct (Hn2 _ _ Hr) as [Hr2|?]; [|by right]. by apply Hn1.
Qed.

Lemma geocode_location_grown self w location_str out self' w' :
  geocode_location env self w location_str = (out, self', w') →
  grown (location_cache self) (location_cache self').
Proof.
  intros Hcall. apply geocode_location_cache in Hcall.
  destruct (location_cache self !! location_str) as [cached|] eqn:Hc.
  - destruct Hcall as (_ & -> & _). apply grown_refl.
  - destruct out as [[r|]|e]; [|rewrite Hcall; apply grown_refl..].
    destruct Hcall as [Hin ->]. split; [by apply insert_subseteq|].
    intros key r'. destruct (decide (key = location_str)) as [->|Hne].
    + rewrite lookup_insert_eq. intros [= <-]. by right.
    + rewrite lookup_insert_ne by done. by left.
Qed.

(** X11.  A pass of the batch orchestrator only adds to the cache,
    whether it completes or is left by an exception: every entry held
    before is still there unchanged, and every other entry of the cache
    afterwards is stored under the input string of its result. *)
Theorem batch_grows_cache tweets self w out self' w' :
  parse_tweets_location env self w tweets = (out, self', w') →
  location_cache self ⊆ location_cache self'
  ∧ ∀ key r, location_cache self' !! key = Some r →
             location_cache self !! key = Some r ∨ input r = key.
Proof.
  unfold parse_tweets_location.
  destruct (parse_each env self w tweets) as [[o self1] w1] eqn:He.
  assert (Hg : grown (location_cache self) (location_cache self1)).
  { revert He.
    apply (parse_each_lift env
             (λ s0 _ s1 _, grown (location_cache s0) (location_cache s1))).
    - intros s0 _. apply grown_refl.
    - intros s0 _ s1 _ s2 _. apply grown_trans.
    - intros s0 w0 s o0 s1 w1'. apply geocode_location_grown. }
  destruct o; returned; exact Hg.
Qed.

End GatewayMore.

(** ** Manual insertion *)

Section ManualInsertMore.
Context `{rt : PyRuntime} (env : nat → Event).

(** X12.  After a manual insert the gateway answers each of the five
    preposition-prefixed variations of the string from the cache, with the
    inserted coordinates and without a query, while every key that is
    neither the string nor one of its variations holds what it held
    before. *)
Theorem manual_insert_variations self w location_str lat lon address city country :
  (∀ key w2,
     key ∈ variations location_str →
     ∃ r,
       geocode_location env
         (add_known_location self w location_str lat lon address city country).1
         w2 key
       = (Returns (Some r),
          (add_known_location self w location_str lat lon address city country).1, w2)
       ∧ input r = location_str ∧ latitude r = lat ∧ longitude r = lon)
  ∧ (∀ key,
       key ≠ location_str → key ∉ variations location_str →
       location_cache
         (add_known_location self w location_str lat lon address city country).1 !! key
       = location_cache self !! key).
Proof.
  split.
  - intros key w2 Hkey.
    exists (known_result location_str lat lon address city country).
    split; [|done]. apply geocode_location_hit.
    rewrite add_known_location_lookup. rewrite bool_decide_eq_true_2; [done|by right].
  - intros key Hne Hnv. rewrite add_known_location_lookup.
    rewrite bool_decide_eq_false_2; [done|]. by intros [?|?].
Qed.

(** X13.  Manual insertion is idempotent and the last insert wins:
    inserting a string twice leaves the cache that the second insert
    alone leaves, whatever the first one stored; each insert flushes the
    cache twice, the second time with all six entries in it. *)
Theorem manual_insert_last_wins self w w' location_str
    lat lon address city country lat' lon' address' city' country' :
  let once := add_known_location self w' location_str lat' lon' address' city' country' in
  let first := add_known_location self w location_str lat lon address city country in
  let twice :=
    add_known_location first.1 first.2 location_str lat' lon' address' city' country' in
  location_cache twice.1 = location_cache once.1
  ∧ head (flushed twice.2) = Some (location_cache twice.1)
  ∧ length (flushed twice.2) = (length (flushed w) + 4)%nat
  ∧ wire twice.2 = wire w.
Proof.
  intros once first twice.
  split; [|subst once first twice; cbn; split_and!; [done|lia|done]].
  apply map_eq. intros key. subst once first twice.
  rewrite !add_known_location_lookup. by case_bool_decide.
Qed.

End ManualInsertMore.

(** ** The limiter *)

Section LimiterMore.
Context `{rt : PyRuntime} (env : nat → Event).
Import PyStr.

(** What the limiter writes: nothing, or the cache it was given. *)
Lemma respect_rate_limit_flushed self w :
  ∃ snaps,
    flushed (_respect_rate_limit env self w).2 = snaps ++ flushed w
    ∧ Forall (λ snap, snap = location_cache self) snaps.
Proof.
  unfold _respect_rate_limit. case_match; cbn.
  - exists [location_cache self]. split; [done|]. by constructor.
  - exists []. split; [done|constructor].
Qed.

Lemma fallback_flushed location_str words :
  ∀ self w res self' w',
    fallback env location_str words self w = (res, self', w') →
    ∃ snaps,
      flushed w' = snaps ++ flushed w
      ∧ Forall (λ snap, snap = location_cache self) snaps.
Proof.
  induction words as [|word rest IH]; intros self w res self' w'; cbn [fallback].
  { returned. exists []. split; [done|constructor]. }
  destruct (set_mem (lower word) MAJOR_LOCATIONS); [|apply IH].
  destruct (respect_rate_limit_flushed self w) as (first & Hfirst & Hall).
  pose proof (respect_rate_limit_cache env self w) as Hcache.
  destruct (_respect_rate_limit env self w) as [self1 w1]. cbn [fst snd] in *.
  unfold geocode.
  destruct (reply (env (tick w1)) word) as [loc| |e];
    [returned; by exists first|..];
    intros Hcall; apply IH in Hcall as (later & Hlater & Hall'); cbn in Hlater;
    exists (later ++ first); rewrite Hlater, Hfirst, app_assoc;
    (split; [done|]); apply Forall_app; (split; [|done]); by rewrite <- Hcache.
Qed.

Lemma focused_retry_flushed location_str self w res self' w' :
  focused_retry env location_str self w = (res, self', w') →
  ∃ snaps,
    flushed w' = snaps ++ flushed w
    ∧ Forall (λ snap, snap = location_cache self) snaps.
Proof.
  unfold focused_retry. case_match; [apply fallback_flushed|].
  returned. exists []. split; [done|constructor].
Qed.

(** X14.  The periodic flushes come before the result.  Every snapshot
    that a gateway call writes to the file is the cache as the call found
    it; there is one for each multiple of ten that the request count
    reaches.  So a result that the call finds is in none of them: the
    entry of the tenth, twentieth, ... attempt reaches the file only with
    a later flush. *)
Theorem periodic_flush_precedes_result self w location_str out self' w' :
  geocode_location env self w location_str = (out, self', w') →
  ∃ snaps,
    flushed w' = snaps ++ flushed w
    ∧ Forall (λ snap, snap = location_cache self) snaps
    ∧ (length snaps + request_count self / 10 = request_count self' / 10)%nat
    ∧ (location_cache self !! location_str = None →
       Forall (λ snap, snap !! location_str = None) snaps).
Proof.
  intros Hcall.
  assert (Hsnaps : ∃ snaps, flushed w' = snaps ++ flushed w
                            ∧ Forall (λ snap, snap = location_cache self) snaps).
  { revert Hcall. unfold geocode_location.
    destruct (location_cache self !! location_str) as [cached|].
    { returned. exists []. split; [done|constructor]. }
    destruct (negb (truthy location_str)).
    { returned. exists []. split; [done|constructor]. }
    destruct (respect_rate_limit_flushed self w) as (first & Hfirst & Hall).
    pose proof (respect_rate_limit_cache env self w) as Hcache.
    destruct (_respect_rate_limit env self w) as [self1 w1]. cbn [fst snd] in *.
    unfold geocode.
    assert (Hretry : ∀ w2 res self2 w3,
              flushed w2 = flushed w1 →
              focused_retry env location_str self1 w2 = (res, self2, w3) →
              ∃ snaps, flushed w3 = snaps ++ flushed w
                       ∧ Forall (λ snap, snap = location_cache self) snaps).
    { intros w2 res self2 w3 Hw2 Hr.
      apply focused_retry_flushed in Hr as (later & Hlater & Hall').
      exists (later ++ first). rewrite Hlater, Hw2, Hfirst, app_assoc.
      split; [done|]. apply Forall_app. split; [|done]. by rewrite <- Hcache. }
    destruct (reply (env (tick w1)) (search_term location_str)) as [loc| |e].
    - returned. by exists first.
    - destruct (focused_retry env location_str self1 _) as [[res self2] w3] eqn:Hr.
      returned. eapply Hretry; [|exact Hr]. done.
    - destruct (caught e); [|returned; by exists first].
      destruct (focused_retry env location_str self1 _) as [[res self2] w3] eqn:Hr.
      returned. eapply Hretry; [|exact Hr]. done. }
  destruct Hsnaps as (snaps & Hflushed & Hall). exists snaps.
  split_and!; [done..| |].
  - apply geocode_location_attempts in Hcall as (k & (_ & _ & _ & Hf) & _).
    rewrite Hflushed, length_app in Hf. lia.
  - intros Hmiss. eapply Forall_impl; [exact Hall|]. by intros snap ->.
Qed.

End LimiterMore.

(** ** The orchestrator *)

Section OrchestratorMore.
Context `{rt : PyRuntime} (env : nat → Event).
Import PyStr.

(** X15.  [parse_tweet_location] returns the post as it was, with one
    entry attached: the candidate of the extractor as raw location and,
    as geocoded data, what the gateway returns for that very candidate.
    A post without a candidate gets two nones and costs nothing: the
    parser and the world are left as they were. *)
Theorem parse_tweet_location_attaches self w tweet tweet' self' w' :
  parse_tweet_location env self w tweet = (Returns tweet', self', w') →
  text tweet' = text tweet ∧ geo tweet' = geo tweet
  ∧ place tweet' = place tweet ∧ user tweet' = user tweet
  ∧ ∃ candidate geocoded_data,
      extract_location_from_tweet tweet = Returns candidate
      ∧ tweet_location tweet'
        = Some {| raw_location := candidate; geocoded := geocoded_data |}
      ∧ match candidate with
        | Some s =>
            geocode_location env self w s = (Returns geocoded_data, self', w')
        | None => geocoded_data = None ∧ self' = self ∧ w' = w
        end.
Proof.
  unfold parse_tweet_location.
  destruct (extract_location_from_tweet tweet) as [[s|]|e] eqn:He; [| |done].
  - assert (Hs : truthy s = true).
    { destruct s; [|done]. unfold extract_location_from_tweet in He.
      destruct (geo_coordinates tweet) as [[|c0 [|c1 more]]|];
        [|done|injection He as He; by destruct (float_str c0)|].
      all: destruct (place_full_name tweet) as [[|c n]|]; [|done|].
      all: destruct (extract_location_from_user_profile (user tweet))
             as [[|c l]|]; try done.
      all: injection He as He;
           by apply extract_location_from_text_truthy in He. }
    rewrite Hs.
    destruct (geocode_location env self w s) as [[[g|e] self1] w1] eqn:Hg; [|done].
    returned. split_and!; try done. by eexists _, _.
  - returned. split_and!; try done. by eexists _, _.
Qed.

Lemma parse_each_aligned tweets :
  ∀ self w result self' w',
    parse_each env self w tweets = (Returns result, self', w') →
    Forall2 (λ tweet tweet',
               text tweet' = text tweet
               ∧ ∃ candidate,
                   extract_location_from_tweet tweet = Returns candidate
                   ∧ raw_location <$> tweet_location tweet' = Some candidate)
            tweets result.
Proof.
  induction tweets as [|tweet rest IH]; intros self w result self' w'; cbn [parse_each].
  { returned. constructor. }
  destruct (parse_tweet_location env self w tweet) as [[[t|e] self1] w1] eqn:Ht;
    [|done].
  destruct (parse_each env self1 w1 rest) as [[[ts|e] self2] w2] eqn:Hr; [|done].
  returned. constructor; [|by eapply IH].
  unfold parse_tweet_location in Ht.
  destruct (extract_location_from_tweet tweet) as [[s|]|e]; [| |done].
  - destruct (truthy s).
    + destruct (geocode_location env self w s) as [[[g|e] s1] w1']; [|done].
      injection Ht as <- _ _. split; [done|]. by eexists.
    + injection Ht as <- _ _. split; [done|]. by eexists.
  - injection Ht as <- _ _. split; [done|]. by eexists.
Qed.

(** X16.  A pass that completes returns the posts in the order given,
    one for one, each with its own text and with the candidate that the
    extractor finds on it as raw location, whatever the cache and the
    service did in between. *)
Theorem batch_results_aligned tweets self w result self' w' :
  parse_tweets_location env self w tweets = (Returns result, self', w') →
  Forall2 (λ tweet tweet',
             text tweet' = text tweet
             ∧ ∃ candidate,
                 extract_location_from_tweet tweet = Returns candidate
                 ∧ raw_location <$> tweet_location tweet' = Some candidate)
          tweets result.
Proof.
  unfold parse_tweets_location.
  destruct (parse_each env self w tweets) as [[[res|e] self1] w1] eqn:He; [|done].
  returned. by eapply parse_each_aligned.
Qed.

(** X17.  [extract_and_save_coordinates] returns what the gateway
    returns.  When that is a result, it flushes once more, and the
    snapshot it flushes holds the result under the string; when it is
    none or an exception, nothing is flushed beyond what the gateway call
    itself flushed. *)
Theorem extract_and_save_coordinates_flushes self w location_str out self' w' :
  extract_and_save_coordinates env self w location_str = (out, self', w') →
  ∃ w1,
    geocode_location env self w location_str = (out, self', w1)
    ∧ tick w' = tick w1 ∧ wire w' = wire w1
    ∧ match out with
      | Returns (Some r) =>
          ∃ snapshot, flushed w' = snapshot :: flushed w1
                      ∧ snapshot = location_cache self'
                      ∧ snapshot !! location_str = Some r
      | _ => flushed w' = flushed w1
      end.
Proof.
  unfold extract_and_save_coordinates.
  destruct (geocode_location env self w location_str) as [[o self1] w1] eqn:Hg.
  destruct o as [[r|]|e]; returned; exists w1; split_and!; try done.
  eexists. split_and!; try done. cbn.
  apply geocode_location_cache in Hg.
  destruct (location_cache self !! location_str) as [cached|] eqn:Hc.
  - by destruct Hg as ([= ->] & -> & _).
  - destruct Hg as [_ ->]. apply lookup_insert_eq.
Qed.

(** X18.  The terminal flush of a completed pass writes the whole cache:
    a parser created on the snapshot flushed last answers every string
    that the old parser had cached, with the same result and without a
    query. *)
Theorem restart_after_batch tweets self w result self' w' key r w2 :
  parse_tweets_location env self w tweets = (Returns result, self', w') →
  location_cache self' !! key = Some r →
  geocode_location env (new (head (flushed w'))) w2 key
  = (Returns (Some r), new (head (flushed w')), w2).
Proof.
  unfold parse_tweets_location.
  destruct (parse_each env self w tweets) as [[[res|e] self1] w1]; [|done].
  returned. intros Hr. by apply geocode_location_hit.
Qed.

End OrchestratorMore.

(** ** The location columns *)

Section CallersMore.
Import PyStr.

Lemma split_comma_not_nil s : Callers.split_comma s ≠ [].
Proof.
  destruct s as [|c s]; [done|]. cbn [Callers.split_comma].
  destruct (Callers.split_comma s); repeat case_match; done.
Qed.

Lemma join_comma_cons part rest :
  rest ≠ [] → join_comma (part :: rest) = part +:+ ", " +:+ join_comma rest.
Proof. by destruct rest. Qed.

Lemma split_comma_extend c s :
  join_comma (Callers.split_comma s) = s →
  join_comma (match Callers.split_comma s with
              | part :: parts => String c part :: parts
              | [] => [String c EmptyString]
              end) = String c s.
Proof.
  pose proof (split_comma_not_nil s) as Hne.
  destruct (Callers.split_comma s) as [|part [|part' parts]]; [done|..];
    intros <-; reflexivity.
Qed.

(** Splitting at the separator and joining with it gives the string back. *)
Lemma join_split_comma s : join_comma (Callers.split_comma s) = s.
Proof.
  assert (Hall : ∀ n s, (String.length s ≤ n)%nat → join_comma (Callers.split_comma s) = s).
  { clear s. induction n as [|n IH]; intros [|c s] Hlen; cbn in Hlen; try done; [lia|].
    cbn [Callers.split_comma].
    assert (Hext := split_comma_extend c s (IH s ltac:(lia))).
    destruct (Ascii.eqb_spec c ",") as [->|]; [|exact Hext].
    destruct s as [|c' rest]; [exact Hext|].
    destruct (Ascii.eqb_spec c' " ") as [->|]; [|exact Hext].
    rewrite join_comma_cons by apply split_comma_not_nil.
    by rewrite (IH rest) by (cbn in Hlen; lia). }
  by apply (Hall (String.length s)).
Qed.

Lemma contains_comma_cons c part :
  contains ", " (String c part)
  = match strip_prefix ", " (String c part) with
    | Some _ => true
    | None => contains ", " part
    end.
Proof. done. Qed.

(** The first part of a split starts as the string starts, or is empty. *)
Lemma split_comma_first c s :
  match Callers.split_comma (String c s) with
  | part :: _ => part = "" ∨ ∃ part', part = String c part'
  | [] => False
  end.
Proof.
  cbn [Callers.split_comma]. destruct (Callers.split_comma s) as [|part parts];
    repeat case_match; simplify_eq; eauto.
Qed.

Lemma split_comma_extend_free c s :
  (Ascii.eqb c "," = true →
   match s with String c' _ => Ascii.eqb c' " " = false | EmptyString => True end) →
  Forall comma_free (Callers.split_comma s) →
  Forall comma_free (match Callers.split_comma s with
                     | part :: parts => String c part :: parts
                     | [] => [String c EmptyString]
                     end).
Proof.
  intros Hc Hfree. pose proof (split_comma_not_nil s) as Hne.
  destruct (Callers.split_comma s) as [|part parts] eqn:Hs; [done|].
  apply Forall_cons in Hfree as [Hpart Hparts]. constructor; [|done].
  unfold comma_free in *. rewrite contains_comma_cons. cbn [strip_prefix].
  rewrite (Ascii.eqb_sym "," c).
  destruct (Ascii.eqb c ",") eqn:Ec; [|done]. specialize (Hc eq_refl).
  destruct part as [|d part']; [done|]. rewrite (Ascii.eqb_sym " " d).
  destruct s as [|c' rest]; [by destruct part'|].
  pose proof (split_comma_first c' rest) as Hfirst. rewrite Hs in Hfirst.
  destruct Hfirst as [?|[? [= -> _]]]; [done|]. by rewrite Hc.
Qed.

(** No part of a split contains the separator. *)
Lemma split_comma_free s : Forall comma_free (Callers.split_comma s).
Proof.
  assert (Hall : ∀ n s, (String.length s ≤ n)%nat → Forall comma_free (Callers.split_comma s)).
  { clear s. induction n as [|n IH]; intros [|c s] Hlen; cbn in Hlen;
      try (by repeat constructor); [lia|].
    cbn [Callers.split_comma].
    destruct (Ascii.eqb c ",") eqn:Ec.
    - destruct s as [|c' rest].
      + apply split_comma_extend_free; [done|by repeat constructor].
      + destruct (Ascii.eqb c' " ") eqn:Ec'.
        * constructor; [done|]. apply IH. cbn in Hlen. lia.
        * apply split_comma_extend_free; [done|]. apply IH. lia.
    - apply split_comma_extend_free; [by rewrite Ec|]. apply IH. lia. }
  by apply (Hall (String.length s)).
Qed.

Lemma from_end_elem {A} (parts : list A) k v : Callers.from_end parts k = Some v → v ∈ parts.
Proof.
  unfold Callers.from_end. case_match; [|done]. apply list_elem_of_lookup_2.
Qed.

(** X19.  The location columns written for a geocoded post with a
    non-empty address are the last three parts of the address, split at
    comma-and-space, aligned from the right: the country is the last
    part and is always set, the state or province is the part before it,
    the city the part before that, and a column whose part is missing is
    null.  The parts joined again give the address, and no column
    contains the separator.  Address and coordinates are stored as the
    result holds them. *)
Theorem location_columns_from_the_right (d : EnrichedLocation) (g : GeocodeResult) :
  geocoded d = Some g →
  truthy (address g) = true →
  let parts := Callers.split_comma (address g) in
  let columns := Callers.location_columns (Some d) in
  Callers.country columns = Callers.from_end parts 1
  ∧ Callers.state_province columns = Callers.from_end parts 2
  ∧ Callers.city columns = Callers.from_end parts 3
  ∧ is_Some (Callers.country columns)
  ∧ join_comma parts = address g
  ∧ (∀ v, Callers.country columns = Some v
          ∨ Callers.state_province columns = Some v
          ∨ Callers.city columns = Some v → comma_free v)
  ∧ Callers.location_raw columns = raw_location d
  ∧ Callers.location_address columns = Some (address g)
  ∧ Callers.latitude columns = Some (latitude g)
  ∧ Callers.longitude columns = Some (longitude g).
Proof.
  intros Hg Ht parts columns.
  assert (Hcols :
    Callers.country columns = Callers.from_end parts 1
    ∧ Callers.state_province columns = Callers.from_end parts 2
    ∧ Callers.city columns = Callers.from_end parts 3
    ∧ is_Some (Callers.country columns)
    ∧ Callers.location_raw columns = raw_location d
    ∧ Callers.location_address columns = Some (address g)
    ∧ Callers.latitude columns = Some (latitude g)
    ∧ Callers.longitude columns = Some (longitude g)).
  { subst columns. unfold Callers.location_columns. rewrite Hg, Ht. fold parts.
    pose proof (split_comma_not_nil (address g)) as Hne. fold parts in Hne.
    destruct parts as [|p1 [|p2 [|p3 more]]]; [done|by cbn|by cbn|].
    change (3 <=? length (p1 :: p2 :: p3 :: more))%nat with true.
    cbn -[Callers.from_end]. split_and!; try done.
    unfold Callers.from_end. cbn [Nat.leb length].
    apply lookup_lt_is_Some. cbn. lia. }
  destruct Hcols as (Hc & Hs & Hy & Hsome & Hraw & Haddr & Hlat & Hlon).
  split_and!; try done.
  - apply join_split_comma.
  - intros v Hv. pose proof (split_comma_free (address g)) as Hfree.
    fold parts in Hfree. rewrite Forall_forall in Hfree. apply Hfree.
    rewrite Hc, Hs, Hy in Hv.
    destruct Hv as [Hv|[Hv|Hv]]; by eapply from_end_elem.
Qed.

Lemma comma_free_cons c part :
  comma_free (String c part) →
  comma_free part
  ∧ (Ascii.eqb c "," = true →
     match part with String d _ => Ascii.eqb d " " = false | EmptyString => True end).
Proof.
  unfold comma_free. rewrite contains_comma_cons. cbn [strip_prefix].
  rewrite (Ascii.eqb_sym "," c). destruct (Ascii.eqb c ",").
  - destruct part as [|d part']; [done|]. rewrite (Ascii.eqb_sym " " d).
    by destruct (Ascii.eqb d " ").
  - done.
Qed.

Lemma split_comma_single part : comma_free part → Callers.split_comma part = [part].
Proof.
  induction part as [|c part IH]; [done|].
  intros [Hfree Hc]%comma_free_cons. cbn [Callers.split_comma]. rewrite (IH Hfree).
  destruct (Ascii.eqb c ","); [|done]. specialize (Hc eq_refl).
  destruct part as [|d part']; [done|]. by rewrite Hc.
Qed.

Lemma split_comma_app part rest :
  comma_free part →
  Callers.split_comma (part +:+ ", " +:+ rest) = part :: Callers.split_comma rest.
Proof.
  induction part as [|c part IH]; [done|].
  intros [Hfree Hc]%comma_free_cons.
  change (String c part +:+ ", " +:+ rest) with (String c (part +:+ ", " +:+ rest)).
  cbn [Callers.split_comma]. rewrite (IH Hfree).
  destruct (Ascii.eqb c ","); [|done]. specialize (Hc eq_refl).
  destruct part as [|d part']; [done|].
  change (String d part' +:+ ", " +:+ rest) with (String d (part' +:+ ", " +:+ rest)).
  cbv beta iota. by rewrite Hc.
Qed.

(** X20.  A location inserted by hand without an address gets the
    address "city, country", and the columns written for it put the city
    given at the insert into the state-or-province column and leave the
    city column null: the two-part address is read as state and
    country. *)
Theorem manual_insert_columns location_str lat lon city country raw_loc :
  let city_text := or_else city "" in
  let country_text := or_else country "" in
  comma_free city_text →
  comma_free country_text →
  let columns :=
    Callers.location_columns
      (Some {| raw_location := raw_loc;
               geocoded := Some (known_result location_str lat lon None city country) |})
  in
  Callers.location_address columns = Some (city_text +:+ ", " +:+ country_text)
  ∧ Callers.city columns = None
  ∧ Callers.state_province columns = Some city_text
  ∧ Callers.country columns = Some country_text
  ∧ Callers.latitude columns = Some lat
  ∧ Callers.longitude columns = Some lon.
Proof.
  intros city_text country_text Hcity Hcountry columns. subst columns.
  unfold Callers.location_columns, known_result.
  cbn [geocoded raw_location address or_else]. fold city_text country_text.
  assert (Ht : truthy (city_text +:+ ", " +:+ country_text) = true)
    by (by destruct city_text).
  rewrite Ht, (split_comma_app _ _ Hcity), (split_comma_single _ Hcountry).
  by cbn.
Qed.

End CallersMore.

(** ** The further properties on concrete runs *)

Module MoreRuns.
Import Sample.

(** "LONDON" in capitals is found through the gazetteer. *)
Lemma gazetteer_mention_found_witness :
  is_Some (extract_location_from_text (rt := runtime) "I LOVE LONDON").
Proof.
  apply (gazetteer_mention_found (rt := runtime) "london" "I LOVE LONDON").
  - apply list_elem_of_In. vm_compute. tauto.
  - reflexivity.
Defined.

(** The candidate of the example post is its trimmed profile location. *)
Lemma extracted_candidate_not_empty_witness : "Manchester, UK" ≠ "".
Proof.
  apply (extracted_candidate_not_empty (rt := runtime) manchester_tweet).
  vm_compute. reflexivity.
Defined.

Lemma profile_location_trimmed_witness :
  ∃ g, extract_location_from_user_profile (rt := runtime) (user manchester_tweet)
       = Some g
       ∧ g = PyStr.strip "  Manchester, UK " ∧ PyStr.strip g = g
       ∧ PyStr.lstrip g = g ∧ PyStr.rstrip g = g.
Proof.
  apply (profile_location_trimmed (rt := runtime)
           {| location := Some "  Manchester, UK "; description := None |}
           "  Manchester, UK ");
    reflexivity.
Defined.

(** "London calling": the primary term and one token, two queries. *)
Lemma gateway_queries_bounded_witness :
  ∃ sent first,
    wire calling.2 = sent ++ first :: wire world0
    ∧ query first = search_term (rt := runtime) "London calling"
    ∧ Forall (allowed_query (rt := runtime) "London calling") (sent ++ [first])
    ∧ (length (sent ++ [first])
       ≤ 1 + length (List.filter gazetteer_token (PyStr.split "London calling")))%nat
    ∧ ((length (PyStr.split "London calling") ≤ 1)%nat → sent = []).
Proof.
  apply (gateway_queries_bounded (rt := runtime) flaky init world0 "London calling"
           calling.1.1 calling.1.2).
  - reflexivity.
  - reflexivity.
  - vm_compute. reflexivity.
Defined.

Lemma gateway_stops_at_first_success_witness :
  ∃ sent, wire calling.2 = sent ++ wire world0
    ∧ ∃ o older, sent = o :: older ∧ answered o = true ∧ Forall unanswered older.
Proof.
  apply (gateway_stops_at_first_success (rt := runtime) flaky init world0
           "London calling" (Returns (Some (make_result "London calling" london)))
           calling.1.2 calling.2).
  - reflexivity.
  - reflexivity.
  - vm_compute. reflexivity.
Defined.

Lemma gateway_contacts_service_iff_witness :
  (wire calling.2 = wire world0
   ↔ is_Some (location_cache init !! "London calling") ∨ "London calling" = "")
  ∧ (is_Some (location_cache init !! "London calling") ∨ "London calling" = "" →
     calling.1.2 = init ∧ calling.2 = world0).
Proof.
  apply (gateway_contacts_service_iff (rt := runtime) flaky init world0
           "London calling" calling.1.1).
  vm_compute. reflexivity.
Defined.

(** The pass adds London to the empty cache and nothing else. *)
Lemma batch_grows_cache_witness :
  location_cache init ⊆ location_cache london_pass.1.2
  ∧ ∀ key r, location_cache london_pass.1.2 !! key = Some r →
             location_cache init !! key = Some r ∨ input r = key.
Proof.
  apply (batch_grows_cache (rt := runtime) steady
           [tweet_at "London"; tweet_at "Atlantis"; tweet_at "London"]
           init world0 london_pass.1.1 london_pass.1.2 london_pass.2).
  vm_compute. reflexivity.
Defined.

Example london_pass_run :
  dom (location_cache london_pass.1.2) = {["London"]}
  ∧ query <$> wire london_pass.2 = ["Atlantis"; "London"]
  ∧ length (flushed london_pass.2) = 1%nat.
Proof. vm_compute. done. Qed.

Lemma parse_tweet_location_attaches_witness :
  text (with_location (tweet_at "London")
          {| raw_location := Some "London";
             geocoded := Some (make_result "London" london) |})
  = text (tweet_at "London").
Proof.
  refine (proj1 (parse_tweet_location_attaches (rt := runtime) steady init world0
                   (tweet_at "London")
                   (with_location (tweet_at "London")
                      {| raw_location := Some "London";
                         geocoded := Some (make_result "London" london) |})
                   london_post.1.2 london_post.2 _)).
  vm_compute. reflexivity.
Defined.

Lemma batch_results_aligned_witness :
  match london_pass.1.1 with
  | Returns result =>
      Forall2 (λ tweet tweet',
                 text tweet' = text tweet
                 ∧ ∃ candidate,
                     extract_location_from_tweet (rt := runtime) tweet
                     = Returns candidate
                     ∧ raw_location <$> tweet_location tweet' = Some candidate)
              [tweet_at "London"; tweet_at "Atlantis"; tweet_at "London"] result
  | Raises _ => False
  end.
Proof.
  destruct london_pass as [[[result|e] self'] w'] eqn:Hpass; cbn [fst].
  - exact (batch_results_aligned (rt := runtime) steady _ init world0
             result self' w' Hpass).
  - vm_compute in Hpass. discriminate Hpass.
Defined.

Lemma extract_and_save_coordinates_flushes_witness :
  ∃ w1,
    geocode_location (rt := runtime) steady init world0 "new york"
    = (Returns (Some (make_result "new york" new_york)), saved.1.2, w1)
    ∧ tick saved.2 = tick w1 ∧ wire saved.2 = wire w1
    ∧ ∃ snapshot, flushed saved.2 = snapshot :: flushed w1
                  ∧ snapshot = location_cache saved.1.2
                  ∧ snapshot !! "new york" = Some (make_result "new york" new_york).
Proof.
  apply (extract_and_save_coordinates_flushes (rt := runtime) steady init world0
           "new york" (Returns (Some (make_result "new york" new_york)))
           saved.1.2 saved.2).
  vm_compute. reflexivity.
Defined.

(** A parser started on what the pass flushed knows London. *)
Lemma restart_after_batch_witness :
  geocode_location (rt := runtime) flaky (new (head (flushed london_pass.2)))
    world0 "London"
  = (Returns (Some (make_result "London" london)),
     new (head (flushed london_pass.2)), world0).
Proof.
  apply (restart_after_batch (rt := runtime) steady
           [tweet_at "London"; tweet_at "Atlantis"; tweet_at "London"]
           init world0
           (match london_pass.1.1 with Returns result => result | Raises _ => [] end)
           london_pass.1.2 london_pass.2 "London" (make_result "London" london)
           world0);
    vm_compute; reflexivity.
Defined.

(** The columns of a result of the service: the last three of four parts. *)
Lemma location_columns_from_the_right_witness :
  Callers.city
    (Callers.location_columns
       (Some {| raw_location := Some "London";
                geocoded := Some (make_result "London" london) |}))
  = Callers.from_end
      (Callers.split_comma "London, Greater London, England, United Kingdom") 3.
Proof.
  exact (proj1 (proj2 (proj2
    (location_columns_from_the_right
       {| raw_location := Some "London";
          geocoded := Some (make_result "London" london) |}
       (make_result "London" london) eq_refl eq_refl)))).
Defined.

Example london_columns :
  let columns :=
    Callers.location_columns
      (Some {| raw_location := Some "London";
               geocoded := Some (make_result "London" london) |}) in
  Callers.city columns = Some "Greater London"
  ∧ Callers.state_province columns = Some "England"
  ∧ Callers.country columns = Some "United Kingdom".
Proof. vm_compute. done. Qed.

(** A text in ASCII: the candidate "London" is the group of a pattern and,
    in lower case, a gazetteer entry. *)
Lemma find_locations_sound_witness :
  PyStr.truthy "London" = true
  ∧ set_mem (PyStr.lower "London") IGNORE_LOCATIONS = false
  ∧ (isascii "Greetings from London" = true →
     (∃ prep, prep ∈ LOCATION_PATTERNS
              ∧ "London" ∈ Re.findall_pattern prep 0 "Greetings from London")
     ∨ set_mem (PyStr.lower "London") MAJOR_LOCATIONS = true).
Proof.
  apply (proj2 (find_locations_sound (rt := runtime) "Greetings from London")).
  apply list_elem_of_In. vm_compute. by left.
Defined.

(** The tenth query of a parser: the flush it triggers writes the cache
    without London, which the query then finds. *)
Lemma periodic_flush_precedes_result_witness :
  ∃ snaps,
    flushed tenth.2 = snaps ++ flushed world0
    ∧ Forall (λ snap, snap = location_cache after_nine) snaps
    ∧ (length snaps + request_count after_nine / 10
       = request_count tenth.1.2 / 10)%nat
    ∧ (location_cache after_nine !! "London" = None →
       Forall (λ snap, snap !! "London" = None) snaps).
Proof.
  apply (periodic_flush_precedes_result (rt := runtime) steady after_nine world0
           "London" tenth.1.1 tenth.1.2 tenth.2).
  vm_compute. reflexivity.
Defined.

Example tenth_run :
  request_count after_nine = 9%nat
  ∧ tenth.1.1 = Returns (Some (make_result "London" london))
  ∧ location_cache tenth.1.2 !! "London" = Some (make_result "London" london)
  ∧ flushed tenth.2 = [location_cache after_nine]
  ∧ location_cache after_nine !! "London" = None.
Proof. vm_compute. done. Qed.

(** London inserted by hand with its city and country. *)
Lemma manual_insert_columns_witness :
  Callers.location_address (Callers.location_columns (Some london_by_hand))
  = Some "London, United Kingdom"
  ∧ Callers.city (Callers.location_columns (Some london_by_hand)) = None
  ∧ Callers.state_province (Callers.location_columns (Some london_by_hand))
    = Some "London"
  ∧ Callers.country (Callers.location_columns (Some london_by_hand))
    = Some "United Kingdom"
  ∧ Callers.latitude (Callers.location_columns (Some london_by_hand))
    = Some 51.5074%float
  ∧ Callers.longitude (Callers.location_columns (Some london_by_hand))
    = Some (-0.1278)%float.
Proof.
  apply (manual_insert_columns "London" 51.5074 (-0.1278)
           (Some "London") (Some "United Kingdom") (Some "London"));
    reflexivity.
Defined.

End MoreRuns.
